(** * The decoding chain of V6.py

    V6.py recovers a text message from an ASK signal: it demodulates the signal
    into raw bits ([demodulate_signal]), decodes the Manchester line code
    ([Manchester_decode]), extracts the frame between its flags
    ([trame_reception]), checks the per-byte CRC ([crcreception]) and assembles
    the characters ([ASCII_decode]).

    The functions below are shallow embeddings of the Python functions of the
    same names.  Python lists of ints are [list Z], Python strings are lists of
    code points, [None] is [option]'s [None], a raised exception is the [Raise]
    outcome of the [result] monad, and numpy's float64 is [spec_float] with the
    IEEE 754 binary64 operations of the standard library. *)

From Equations Require Import Equations.
From Stdlib Require Import ZArith String Ascii DecimalString Bool Lia List.
From Stdlib Require Import SpecFloat.
Import ListNotations.

Local Open Scope Z_scope.

(** ** Python values and builtins used by V6.py *)

Module Py.

(** Exceptions the builtins used here can raise. *)
Inductive exn : Set := ValueError | IndexError | OverflowError.

(** Outcome of evaluating a Python expression: a value or a raised exception. *)
Inductive result (A : Type) : Type :=
| Ok (a : A)
| Raise (e : exn).
Arguments Ok {A} a.
Arguments Raise {A} e.

Definition bind {A B : Type} (m : result A) (k : A -> result B) : result B :=
  match m with
  | Ok a => k a
  | Raise e => Raise e
  end.

(** A Python [str]: its sequence of code points. *)
Definition pystr : Type := list Z.

(** A string literal of the source. *)
Definition lit (s : string) : pystr :=
  map (fun c => Z.of_N (N_of_ascii c)) (list_ascii_of_string s).

Fixpoint list_eqb (l1 l2 : list Z) : bool :=
  match l1, l2 with
  | [], [] => true
  | x :: r1, y :: r2 => (x =? y) && list_eqb r1 r2
  | _, _ => false
  end.

(** [len(l)] *)
Definition len {A : Type} (l : list A) : Z := Z.of_nat (length l).

(** A slice bound [i] of a sequence of length [n]: a negative bound counts
    from the end, and the outcome is clamped to [0..n]. *)
Definition bound (n i : Z) : Z :=
  let j := if i <? 0 then i + n else i in
  Z.max 0 (Z.min n j).

(** [l[lo:hi]]; an omitted bound is [None]. *)
Definition slice {A : Type} (l : list A) (lo hi : option Z) : list A :=
  let n := len l in
  let a := match lo with Some i => bound n i | None => 0 end in
  let b := match hi with Some j => bound n j | None => n end in
  firstn (Z.to_nat (b - a)) (skipn (Z.to_nat a) l).

(** [l[i]] for [i >= 0]. *)
Definition index {A : Type} (l : list A) (i : nat) : result A :=
  match nth_error l i with
  | Some x => Ok x
  | None => Raise IndexError
  end.

(** [range(start, stop, step)] for a positive step, as the list of its
    values; [fuel] bounds the number of values. *)
Fixpoint range_from (fuel start stop step : nat) : list nat :=
  match fuel with
  | O => []
  | S fuel' =>
      if (start <? stop)%nat
      then start :: range_from fuel' (start + step) stop step
      else []
  end.

Definition range (start stop step : nat) : list nat :=
  range_from stop start stop step.

(** [str(z)] of an int: its decimal rendering. *)
Definition str (z : Z) : pystr := lit (NilZero.string_of_int (Z.to_int z)).

(** [''.join(parts)] *)
Definition join (parts : list pystr) : pystr := concat parts.

Definition bin_digit (c : Z) : option Z :=
  if c =? 48 then Some 0 else if c =? 49 then Some 1 else None.

Fixpoint bin_value (acc : Z) (s : pystr) : option Z :=
  match s with
  | [] => Some acc
  | c :: r =>
      match bin_digit c with
      | Some d => bin_value (2 * acc + d) r
      | None => None
      end
  end.

(** [int(s, 2)] on the strings V6.py builds, which hold only the characters
    of [str] of an int (a sign and decimal digits): an optional sign, then
    at least one digit, all of them 0 or 1; anything else is a ValueError. *)
Definition int2 (s : pystr) : result Z :=
  let '(neg, digits) :=
    match s with
    | c :: r => if c =? 45 then (true, r)
                else if c =? 43 then (false, r) else (false, s)
    | [] => (false, s)
    end in
  match digits with
  | [] => Raise ValueError
  | _ :: _ =>
      match bin_value 0 digits with
      | Some v => Ok (if neg then - v else v)
      | None => Raise ValueError
      end
  end.

Fixpoint bin_pos (p : positive) : pystr :=
  match p with
  | xH => [49]
  | xO q => bin_pos q ++ [48]
  | xI q => bin_pos q ++ [49]
  end.

Definition bin_abs (n : Z) : pystr :=
  match n with
  | Z0 => [48]
  | Zpos p => bin_pos p
  | Zneg p => bin_pos p
  end.

(** [format(n, '04b')]: binary digits, zero-padded after the sign to a
    total width of at least 4. *)
Definition format_04b (n : Z) : pystr :=
  let d := bin_abs n in
  if n <? 0
  then 45 :: repeat 48 (3 - length d) ++ d
  else repeat 48 (4 - length d) ++ d.

(** [chr(v)]: the one-character string of code point [v]. *)
Definition chr (v : Z) : result pystr :=
  if (v <? - 2 ^ 31) || (2 ^ 31 - 1 <? v) then Raise OverflowError
  else if (0 <=? v) && (v <? 1114112) then Ok [v]
  else Raise ValueError.

End Py.

Import Py.

Notation "x <- m ;; k" := (bind m (fun x => k))
  (at level 61, m at next level, right associativity).

(** ** Global parameters (lines 10-13) *)

Definition float : Set := spec_float.

Module F64.
Definition prec : Z := 53.
Definition emax : Z := 1024.
Definition add : float -> float -> float := SFadd prec emax.
Definition mul : float -> float -> float := SFmul prec emax.
Definition div : float -> float -> float := SFdiv prec emax.
(** Conversion of an int to float64 (round to nearest even). *)
Definition of_int (z : Z) : float := binary_normalize prec emax z 0 false.
(** [int(x)] of a finite float: truncation toward zero. *)
Definition trunc (x : float) : Z :=
  match x with
  | S754_finite s m e =>
      let a := if 0 <=? e then Zpos m * 2 ^ e else Zpos m / 2 ^ (- e) in
      if s then - a else a
  | _ => 0
  end.
(** [x > y] *)
Definition gt (x y : float) : bool :=
  match SFcompare x y with
  | Some Gt => true
  | _ => false
  end.
Definition zero : float := S754_zero false.
Definition one : float := of_int 1.
Definition two : float := of_int 2.
(** [np.pi], the float64 nearest to pi: 0x1.921fb54442d18p+1. *)
Definition pi : float := S754_finite false 7074237752028440 (-51).
End F64.

Definition Fe : Z := 44100.
Definition baud : Z := 200.
Definition Ns : Z := F64.trunc (F64.div (F64.of_int Fe) (F64.of_int baud)).
Definition Fp_ASK : Z := 2000.

(** ** Demodulation (lines 19-40) *)

(** The additions [ndarray.sum] performs on the terms of an array: numpy
    fixes their order from the array's length (blocks summed pairwise), and
    each addition is a float64 addition.  A [sum_tree] is such an order:
    its leaves are positions of terms or a zero the accumulation starts
    from. *)
Inductive sum_tree : Set :=
| Term (i : nat)
| Start (negative : bool)
| Plus (l r : sum_tree).

Fixpoint sum_along (terms : list float) (t : sum_tree) : float :=
  match t with
  | Term i => nth i terms F64.zero
  | Start s => S754_zero s
  | Plus l r => F64.add (sum_along terms l) (sum_along terms r)
  end.

Section Demodulation.

(** The sine of the C library, which [np.sin] applies to each element. *)
Variable np_sin : float -> float.

(** The order of the additions of [ndarray.sum] on [n >= 1] terms. *)
Variable sum_order : nat -> sum_tree.

Definition np_sum (terms : list float) : float :=
  match terms with
  | [] => F64.zero
  | _ :: _ => sum_along terms (sum_order (length terms))
  end.

(** [np.trapz(y)] with the default spacing [dx = 1.0]:
    [(dx * (y[1:] + y[:-1]) / 2.0).sum()]. *)
Definition np_trapz (y : list float) : float :=
  np_sum (map (fun '(a, b) => F64.div (F64.mul F64.one (F64.add a b)) F64.two)
              (combine (slice y (Some 1) None) (slice y None (Some (-1))))).

(** [t = np.arange(N) / Fe_used] *)
Definition instants (N : nat) (Fe_used : Z) : list float :=
  map (fun i => F64.div (F64.of_int (Z.of_nat i)) (F64.of_int Fe_used))
      (seq 0 N).

(** [np.sin(2 * np.pi * Fp_ASK * t)] *)
Definition carrier (t : list float) : list float :=
  map (fun ti =>
         np_sin (F64.mul (F64.mul (F64.mul F64.two F64.pi) (F64.of_int Fp_ASK)) ti))
      t.

(** Elementwise product of two arrays of the same length. *)
Definition np_mul (a b : list float) : list float :=
  map (fun '(x, y) => F64.mul x y) (combine a b).

(** The loop of lines 35-39 over the window starts [i]. *)
Fixpoint demodulate_loop (produit : list float) (starts : list nat)
         (bits : list Z) : list Z :=
  match starts with
  | [] => bits
  | i :: rest =>
      let portion :=
        slice produit (Some (Z.of_nat i)) (Some (Z.of_nat i + Ns)) in
      let val := np_trapz portion in
      demodulate_loop produit rest
        (bits ++ [if F64.gt val (F64.of_int 0) then 1 else 0])
  end.

Definition demodulate_signal (signal : list float) (Fe_used : Z) : list Z :=
  let N := length signal in
  let t := instants N Fe_used in
  let porteuse := carrier t in
  let produit := np_mul signal porteuse in
  demodulate_loop produit (range 0 N (Z.to_nat Ns)) [].

End Demodulation.

(** ** Manchester decoding (lines 42-56) *)

Fixpoint Manchester_loop (bits : list Z) (starts : list nat)
         (decode : list Z) : result (list Z) :=
  match starts with
  | [] => Ok decode
  | i :: rest =>
      if (length bits <=? i + 1)%nat then Ok decode
      else
        b1 <- index bits i ;;
        b2 <- index bits (i + 1) ;;
        if (b1 =? 1) && (b2 =? 0) then Manchester_loop bits rest (decode ++ [1])
        else if (b1 =? 0) && (b2 =? 1) then Manchester_loop bits rest (decode ++ [0])
        else Manchester_loop bits rest decode
  end.

Definition Manchester_decode (bits : list Z) : result (list Z) :=
  Manchester_loop bits (range 0 (length bits) 2) [].

(** ** Frame extraction (lines 58-83) *)

(** The pair [(None, None)] of the source is [None] here. *)
Definition trame_reception (bits : list Z) : option (list Z * pystr) :=
  if len bits <? 16 then None
  else
    let fanion_debut := slice bits None (Some 8) in
    let fanion_fin := slice bits (Some (-8)) None in
    let core := slice bits (Some 8) (Some (-8)) in
    if negb (list_eqb fanion_debut (repeat 1 8))
       || negb (list_eqb fanion_fin (repeat 0 8))
    then None
    else if len core <? 8 then None
    else
      let protocole := slice core None (Some 8) in
      let data_crc := slice core (Some 8) None in
      let type_fic :=
        if list_eqb protocole [1; 1; 0; 0; 0; 0; 1; 1] then lit "txt" else lit "?" in
      Some (data_crc, type_fic).

(** ** CRC check (lines 85-112) *)

(** [int("1001", 2)] *)
Definition diviseur : Z := 9.

(** Lines 103-106: the remainder recomputed from the data bits. *)
Definition reste_calc (data_8 : list Z) : result Z :=
  let data_str := join (map str data_8) in
  let data_plus_0000 := data_str ++ lit "0000" in
  data_dec <- int2 data_plus_0000 ;;
  Ok (data_dec mod diviseur).

(** Lines 100-109 on one block: does the recomputed CRC equal the received
    one? *)
Definition bloc_ok (bloc : list Z) : result bool :=
  let data_8 := slice bloc None (Some 8) in
  let reste_4 := slice bloc (Some 8) None in
  r <- reste_calc data_8 ;;
  let reste_str := format_04b r in
  let recu_str := join (map str reste_4) in
  Ok (list_eqb reste_str recu_str).

(** The [while] loop of lines 97-111, on the state
    [(idx, data_res, integrite_ok)]; [bloc] is [bits[idx:idx+12]]. *)
Opaque slice bloc_ok.
Equations? crc_loop (bits : list Z) (idx : nat) (data_res : list Z)
  (integrite_ok : bool) : result (list Z * bool)
  by wf (length bits - idx)%nat lt :=
  crc_loop bits idx data_res integrite_ok
    with le_lt_dec (idx + 12) (length bits) => {
    | right _ => Ok (data_res, integrite_ok)
    | left _
        with bloc_ok (slice bits (Some (Z.of_nat idx)) (Some (Z.of_nat idx + 12))) => {
        | Raise e => Raise e
        | Ok same =>
            let bloc := slice bits (Some (Z.of_nat idx)) (Some (Z.of_nat idx + 12)) in
            crc_loop bits (idx + 12)
              (data_res ++ slice bloc None (Some 8))
              (if same then integrite_ok else false) } }.
Proof. lia. Qed.
Transparent slice bloc_ok.

Definition crcreception (bits : list Z) : result (option (list Z)) :=
  st <- crc_loop bits 0 [] true ;;
  let '(data_res, integrite_ok) := st in
  Ok (if integrite_ok then Some data_res else None).

(** ** Character assembly (lines 114-128) *)

Definition placeholder : pystr := lit "[Protocole inconnu ou bits vides]".

Fixpoint ASCII_loop (bits : list Z) (starts : list nat) (chaine : pystr)
  : result pystr :=
  match starts with
  | [] => Ok chaine
  | i :: rest =>
      let octet := slice bits (Some (Z.of_nat i)) (Some (Z.of_nat i + 8)) in
      if len octet <? 8 then Ok chaine
      else
        val <- int2 (join (map str octet)) ;;
        c <- chr val ;;
        ASCII_loop bits rest (chaine ++ c)
  end.

Definition ASCII_decode (bits : list Z) (type_fic : pystr) : result pystr :=
  if negb (list_eqb type_fic (lit "txt"))
     || match bits with [] => true | _ :: _ => false end
  then Ok placeholder
  else ASCII_loop bits (range 0 (length bits) 8) [].

(** ** The decoding steps of [decode_file] (lines 173-195) *)

(** What [decode_file] prints at its end: the message, or one of its two
    error lines. *)
Inductive outcome : Type :=
| Message (message : pystr)
| TrameError
| CrcError.

(** Lines 181-195, from the Manchester-decoded bits. *)
Definition decode_trame (bits_manch : list Z) : result outcome :=
  match trame_reception bits_manch with
  | None => Ok TrameError
  | Some (data_crc, type_fic) =>
      data_ok <- crcreception data_crc ;;
      match data_ok with
      | None => Ok CrcError
      | Some d =>
          message <- ASCII_decode d type_fic ;;
          Ok (Message message)
      end
  end.

Section Decode_file.
Variable np_sin : float -> float.
Variable sum_order : nat -> sum_tree.

(** Lines 173-195, from the samples read from the file. *)
Definition decode_file (signal : list float) (Fe_used : Z) : result outcome :=
  let bits_demod := demodulate_signal np_sin sum_order signal Fe_used in
  bits_manch <- Manchester_decode bits_demod ;;
  decode_trame bits_manch.
End Decode_file.

(** ** The notions the specification is written in *)

(** A bit is the int 0 or the int 1; a bit sequence is a list of bits. *)
Definition is_bit (b : Z) : Prop := b = 0 \/ b = 1.
Definition bit_seq (bits : list Z) : Prop := Forall is_bit bits.

(** The unsigned integer a bit sequence denotes, most significant bit first. *)
Definition unsigned (bits : list Z) : Z :=
  fold_left (fun acc b => 2 * acc + b) bits 0.

(** The characters '0' and '1' of a bit sequence. *)
Definition digits (bits : list Z) : pystr := map (fun b => 48 + b) bits.

(** The 4-bit binary rendering of [v], most significant bit first. *)
Definition render4 (v : Z) : list Z :=
  [v / 8 mod 2; v / 4 mod 2; v / 2 mod 2; v mod 2].

(** The 8-bit binary rendering of a byte. *)
Definition render8 (v : Z) : list Z :=
  render4 (v / 16) ++ render4 v.

(** The complete [n]-element blocks of a sequence, in order; what remains
    after the last complete block is left out. *)
Equations? chunks {A : Type} (n : nat) (l : list A) : list (list A)
  by wf (length l) lt :=
  chunks 0 l := [];
  chunks (S m) l with le_lt_dec (S m) (length l) => {
    | left _ => firstn (S m) l :: chunks (S m) (skipn (S m) l)
    | right _ => [] }.
Proof. change (length (skipn (S m) l) < length l)%nat. rewrite length_skipn. lia. Qed.

(** A checksum block: an 8-bit data unit followed by a 4-bit checksum unit. *)
Definition data_unit (bloc : list Z) : list Z := firstn 8 bloc.
Definition checksum_unit (bloc : list Z) : list Z := skipn 8 bloc.

(** The checksum the specification expects for a data unit: the data unit
    followed by four zero bits, read as an unsigned integer, modulo 9. *)
Definition expected_checksum (D : list Z) : Z := (unsigned D * 16) mod 9.

(** A block verifies when the rendering of the expected checksum is the
    received checksum unit. *)
Definition verifies (bloc : list Z) : Prop :=
  render4 (expected_checksum (data_unit bloc)) = checksum_unit bloc.

Definition verifiesb (bloc : list Z) : bool :=
  list_eqb (render4 (expected_checksum (data_unit bloc))) (checksum_unit bloc).

(** The block that protects a data unit. *)
Definition protect (D : list Z) : list Z := D ++ render4 (expected_checksum D).

(** A sequence with the bit at position [k] flipped. *)
Definition flip (k : nat) (bits : list Z) : list Z :=
  firstn k bits ++ map (fun b => 1 - b) (firstn 1 (skipn k bits))
         ++ skipn (S k) bits.

(** Manchester decoding as the specification words it: pairs taken left to
    right, (1,0) gives 1, (0,1) gives 0, any other pair gives nothing, and a
    last bit without a partner is left out. *)
Definition pair_bit (b1 b2 : Z) : list Z :=
  if (b1 =? 1) && (b2 =? 0) then [1]
  else if (b1 =? 0) && (b2 =? 1) then [0]
  else [].

Fixpoint pairs_decode (bits : list Z) : list Z :=
  match bits with
  | b1 :: b2 :: rest => pair_bit b1 b2 ++ pairs_decode rest
  | _ => []
  end.

(** A pair of the line code, its two raw bits and the logical bit it maps to. *)
Definition clean_pair (p : Z * Z) : Prop := p = (1, 0) \/ p = (0, 1).
Definition pair_bits (p : Z * Z) : list Z := [fst p; snd p].
Definition pair_value (p : Z * Z) : Z :=
  if (fst p =? 1) && (snd p =? 0) then 1 else 0.

(** The interior of a frame: what lies between the two flags. *)
Definition interior (bits : list Z) : list Z :=
  firstn (length bits - 16) (skipn 8 bits).

(** [ceil(a / b)] for a positive [b]. *)
Definition ceil_div (a b : nat) : nat := ((a + b - 1) / b)%nat.

(** A float that is strictly positive: a positive finite number or plus
    infinity. *)
Definition positive_float (x : float) : Prop :=
  match x with
  | S754_finite false _ _ | S754_infinity false => True
  | _ => False
  end.

(** The angular frequency of the carrier in the source:
    [2 * np.pi * Fp_ASK]. *)
Definition pulsation : float :=
  F64.mul (F64.mul F64.two F64.pi) (F64.of_int Fp_ASK).

(** A float that is a zero of either sign. *)
Definition is_zero (x : float) : Prop := exists s, x = S754_zero s.

(** A float that is a zero or not a number: what sums and products of zeros
    can be. *)
Definition null (x : float) : Prop := is_zero x \/ x = S754_nan.

(** The frame of the end-to-end scenario: start flag, text protocol, the
    blocks of 'H' and 'I', end flag. *)
Definition blocks_HI : list Z :=
  flat_map (fun c => protect (render8 c)) (lit "HI").

Definition frame_HI : list Z :=
  repeat 1 8 ++ [1; 1; 0; 0; 0; 0; 1; 1] ++ blocks_HI ++ repeat 0 8.

(** ** Frames as a sender builds them

    V6.py only decodes.  The sequences below are what its docstrings say a
    sender emits; they are used to state what the decoder does on them. *)

(** The protocol byte of text, 11000011. *)
Definition text_protocol : list Z := [1; 1; 0; 0; 0; 0; 1; 1].

(** Start flag, protocol byte, payload, end flag. *)
Definition frame_of (protocole payload : list Z) : list Z :=
  repeat 1 8 ++ protocole ++ payload ++ repeat 0 8.

(** The payload of a list of data units: each one followed by its checksum. *)
Definition protect_all (units : list (list Z)) : list Z :=
  flat_map protect units.

(** The data units of a message: the 8 bits of each code point. *)
Definition units_of (message : pystr) : list (list Z) := map render8 message.

(** A code point that fits 8 bits. *)
Definition is_byte (c : Z) : Prop := 0 <= c < 256.

(** An int whose [str] is one decimal digit. *)
Definition is_digit (b : Z) : Prop := 0 <= b <= 9.

(** * Properties *)

(** ** Slices and ranges *)

Section Slices.
Context {A : Type}.
Implicit Types l : list A.

Lemma slice_window l (a b : Z) :
  0 <= a <= b ->
  slice l (Some a) (Some b)
  = firstn (Z.to_nat b - Z.to_nat a) (skipn (Z.to_nat a) l).
Proof.
  intros H. unfold slice, bound, len.
  destruct (a <? 0) eqn:Ha; [apply Z.ltb_lt in Ha; lia|].
  destruct (b <? 0) eqn:Hb; [apply Z.ltb_lt in Hb; lia|].
  destruct (Z_lt_le_dec a (Z.of_nat (length l))) as [Hlt | Hge].
  - replace (Z.max 0 (Z.min (Z.of_nat (length l)) a)) with a by lia.
    destruct (Z_lt_le_dec b (Z.of_nat (length l))) as [Hb' | Hb'].
    + replace (Z.max 0 (Z.min (Z.of_nat (length l)) b)) with b by lia.
      f_equal. lia.
    + replace (Z.max 0 (Z.min (Z.of_nat (length l)) b))
        with (Z.of_nat (length l)) by lia.
      rewrite !firstn_all2; [reflexivity | | ]; rewrite length_skipn; lia.
  - rewrite !skipn_all2 by lia. now rewrite !firstn_nil.
Qed.

Lemma slice_prefix l (n : Z) :
  0 <= n -> slice l None (Some n) = firstn (Z.to_nat n) l.
Proof.
  intros H. unfold slice, bound, len.
  destruct (n <? 0) eqn:Hn; [apply Z.ltb_lt in Hn; lia|].
  simpl skipn. rewrite Z.sub_0_r.
  destruct (Z_lt_le_dec n (Z.of_nat (length l))).
  - f_equal. lia.
  - rewrite !firstn_all2; [reflexivity | lia | lia].
Qed.

Lemma slice_suffix l (n : Z) :
  0 <= n -> slice l (Some n) None = skipn (Z.to_nat n) l.
Proof.
  intros H. unfold slice, bound, len.
  destruct (n <? 0) eqn:Hn; [apply Z.ltb_lt in Hn; lia|].
  destruct (Z_lt_le_dec n (Z.of_nat (length l))).
  - replace (Z.max 0 (Z.min (Z.of_nat (length l)) n)) with n by lia.
    apply firstn_all2. rewrite length_skipn. lia.
  - rewrite !skipn_all2 by lia. apply firstn_nil.
Qed.

Lemma slice_last l (n : Z) :
  0 < n <= len l ->
  slice l (Some (- n)) None = skipn (length l - Z.to_nat n) l.
Proof.
  intros H. unfold slice, bound, len in *.
  destruct (- n <? 0) eqn:Hn; [|apply Z.ltb_ge in Hn; lia].
  replace (Z.max 0 (Z.min (Z.of_nat (length l)) (- n + Z.of_nat (length l))))
    with (Z.of_nat (length l) - n) by lia.
  replace (Z.to_nat (Z.of_nat (length l) - n))
    with (length l - Z.to_nat n)%nat by lia.
  apply firstn_all2. rewrite length_skipn. lia.
Qed.

Lemma slice_inner l (a n : Z) :
  0 <= a -> 0 < n -> a + n <= len l ->
  slice l (Some a) (Some (- n))
  = firstn (length l - Z.to_nat n - Z.to_nat a) (skipn (Z.to_nat a) l).
Proof.
  intros Ha Hn H. unfold slice, bound, len in *.
  destruct (a <? 0) eqn:Ea; [apply Z.ltb_lt in Ea; lia|].
  destruct (- n <? 0) eqn:En; [|apply Z.ltb_ge in En; lia].
  f_equal; [lia | f_equal; lia].
Qed.

(** Position [i] of a list splits what follows it. *)
Lemma skipn_cons l (i : nat) :
  (i < length l)%nat ->
  exists x, nth_error l i = Some x /\ skipn i l = x :: skipn (S i) l.
Proof.
  revert i. induction l as [| y l IH]; intros i Hi; simpl in Hi; [lia|].
  destruct i as [| i].
  - exists y. split; reflexivity.
  - destruct (IH i) as [x [E1 E2]]; [lia|]. exists x. split; assumption.
Qed.

End Slices.

(** One more window is counted when the start moves one step back. *)
Lemma ceil_div_step (start stop step : nat) :
  (0 < step)%nat -> (start < stop)%nat ->
  ((stop - start + step - 1) / step
   = S ((stop - (start + step) + step - 1) / step))%nat.
Proof.
  intros Hstep Hlt.
  destruct (le_lt_dec (start + step) stop) as [Hfar | Hnear].
  - replace (stop - start + step - 1)%nat
      with (1 * step + (stop - (start + step) + step - 1))%nat by lia.
    rewrite Nat.div_add_l by lia. reflexivity.
  - replace (stop - (start + step))%nat with 0%nat by lia.
    rewrite (Nat.div_small (0 + step - 1)) by lia.
    symmetry. apply (Nat.div_unique _ _ _ (stop - start - 1)); lia.
Qed.

(** The values of [range(start, stop, step)] are [start + k * step] for [k]
    below [ceil((stop - start) / step)]. *)
Lemma range_from_values (fuel start stop step : nat) :
  (0 < step)%nat -> (stop - start <= fuel)%nat ->
  range_from fuel start stop step
  = map (fun k => (start + k * step)%nat)
        (seq 0 ((stop - start + step - 1) / step)).
Proof.
  intros Hstep. revert start.
  induction fuel as [| fuel IH]; intros start Hfuel.
  - simpl. rewrite Nat.div_small by lia. reflexivity.
  - simpl. destruct (start <? stop)%nat eqn:E.
    + apply Nat.ltb_lt in E.
      rewrite (ceil_div_step start stop step) by assumption.
      simpl seq. simpl map. f_equal; [lia|].
      rewrite IH by lia. rewrite <- seq_shift, map_map.
      apply map_ext. intros k. lia.
    + apply Nat.ltb_ge in E. rewrite Nat.div_small by lia. reflexivity.
Qed.

Lemma range_values (stop step : nat) :
  (0 < step)%nat ->
  range 0 stop step
  = map (fun k => (k * step)%nat) (seq 0 ((stop + step - 1) / step)).
Proof.
  intros H. unfold range. rewrite range_from_values by lia.
  rewrite Nat.sub_0_r. reflexivity.
Qed.

(** ** Manchester decoding *)

(** The loop, started at index [i] with [decode] collected so far, appends
    the decoding of the pairs from [i] on. *)
Lemma Manchester_loop_pairs (bits : list Z) (fuel i : nat) (decode : list Z) :
  (length bits - i <= fuel)%nat ->
  Manchester_loop bits (range_from fuel i (length bits) 2) decode
  = Ok (decode ++ pairs_decode (skipn i bits)).
Proof.
  revert i decode. induction fuel as [| fuel IH]; intros i decode Hfuel.
  - simpl. rewrite skipn_all2 by lia. now rewrite app_nil_r.
  - simpl. destruct (i <? length bits)%nat eqn:Hi.
    + apply Nat.ltb_lt in Hi. simpl.
      destruct (skipn_cons bits i Hi) as [b1 [E1 S1]].
      destruct (length bits <=? i + 1)%nat eqn:Hlast.
      * (* the last bit has no partner: break *)
        apply Nat.leb_le in Hlast.
        rewrite S1, skipn_all2 by lia. simpl. now rewrite app_nil_r.
      * apply Nat.leb_gt in Hlast.
        destruct (skipn_cons bits (S i)) as [b2 [E2 S2]]; [lia|].
        unfold index. replace (i + 1)%nat with (S i) by lia.
        rewrite E1, E2. simpl bind.
        rewrite S1, S2. simpl pairs_decode. unfold pair_bit.
        replace (i + 2)%nat with (S (S i)) by lia.
        destruct ((b1 =? 1) && (b2 =? 0));
          [| destruct ((b1 =? 0) && (b2 =? 1))];
          rewrite IH by lia; f_equal; now rewrite <- ?app_assoc.
    + apply Nat.ltb_ge in Hi. rewrite skipn_all2 by lia.
      simpl. now rewrite app_nil_r.
Qed.

Lemma Manchester_decode_total (bits : list Z) :
  Manchester_decode bits = Ok (pairs_decode bits).
Proof.
  unfold Manchester_decode, range.
  rewrite Manchester_loop_pairs by lia. reflexivity.
Qed.

Lemma pair_bit_length (b1 b2 : Z) : (length (pair_bit b1 b2) <= 1)%nat.
Proof.
  unfold pair_bit.
  destruct ((b1 =? 1) && (b2 =? 0)); [simpl; lia|].
  destruct ((b1 =? 0) && (b2 =? 1)); simpl; lia.
Qed.

(** Induction on lists two elements at a time. *)
Lemma pair_induction {A : Type} (P : list A -> Prop) :
  P [] -> (forall x, P [x]) ->
  (forall x y l, P l -> P (x :: y :: l)) ->
  forall l, P l.
Proof.
  intros H0 H1 H2 l.
  assert (H : P l /\ forall x, P (x :: l)).
  { induction l as [| y l [IHa IHb]].
    - split; [exact H0 | exact H1].
    - split; [apply IHb | intros x; apply H2, IHa]. }
  apply H.
Qed.

Lemma pairs_decode_length (bits : list Z) :
  (length (pairs_decode bits) <= length bits / 2)%nat.
Proof.
  induction bits as [| x | x y l IH] using pair_induction.
  - simpl. lia.
  - simpl. lia.
  - change (length (x :: y :: l)) with (1 * 2 + length l)%nat.
    rewrite Nat.div_add_l by lia.
    simpl pairs_decode. rewrite length_app.
    pose proof (pair_bit_length x y). lia.
Qed.

Lemma pairs_decode_clean (ps : list (Z * Z)) :
  Forall clean_pair ps ->
  pairs_decode (flat_map pair_bits ps) = map pair_value ps.
Proof.
  induction 1 as [| p ps Hp _ IH]; [reflexivity|].
  destruct Hp as [-> | ->]; simpl; now rewrite IH.
Qed.

Lemma flat_pairs_length (ps : list (Z * Z)) :
  length (flat_map pair_bits ps) = (2 * length ps)%nat.
Proof.
  induction ps as [| p ps IH]; simpl; lia.
Qed.

(** C3: Manchester decoding never fails; it decodes the input pair by pair,
    left to right: (1,0) gives 1, (0,1) gives 0, any other pair gives no bit
    and a last bit without partner is left out, so the output has at most
    half as many bits as the input; an input made of pairs (1,0) and (0,1)
    only gives exactly one bit per pair, the value its pair maps to. *)
Theorem Manchester_decode_pairwise (bits : list Z) :
  Manchester_decode bits = Ok (pairs_decode bits)
  /\ (length (pairs_decode bits) <= length bits / 2)%nat
  /\ (forall ps : list (Z * Z),
        Forall clean_pair ps -> bits = flat_map pair_bits ps ->
        Manchester_decode bits = Ok (map pair_value ps)
        /\ length (map pair_value ps) = (length bits / 2)%nat
        /\ forall i p, nth_error ps i = Some p ->
                       nth_error (map pair_value ps) i = Some (pair_value p)).
Proof.
  split; [apply Manchester_decode_total|].
  split; [apply pairs_decode_length|].
  intros ps Hps ->. rewrite Manchester_decode_total.
  rewrite pairs_decode_clean by assumption.
  split; [reflexivity|]. split.
  - rewrite length_map, flat_pairs_length.
    rewrite Nat.mul_comm, Nat.div_mul by lia. reflexivity.
  - intros i p Hp. now rewrite nth_error_map, Hp.
Qed.

Lemma Manchester_decode_pairwise_witness :
  Manchester_decode [1; 0; 0; 1; 1; 0] = Ok [1; 0; 1]
  /\ length [1; 0; 1] = (length [1; 0; 0; 1; 1; 0] / 2)%nat.
Proof.
  destruct (Manchester_decode_pairwise [1; 0; 0; 1; 1; 0])
    as [_ [_ H]].
  destruct (H [(1, 0); (0, 1); (1, 0)]) as [H1 [H2 _]].
  - repeat (apply Forall_cons || apply Forall_nil);
      [left | right | left]; reflexivity.
  - reflexivity.
  - split; [exact H1 | exact H2].
Defined.

(** ** Frame extraction *)

Lemma list_eqb_eq (l1 l2 : list Z) : list_eqb l1 l2 = true <-> l1 = l2.
Proof.
  revert l2. induction l1 as [| x l1 IH]; intros [| y l2]; simpl;
    try (split; [discriminate | discriminate]); [tauto|].
  rewrite andb_true_iff, Z.eqb_eq, IH.
  split; [intros [-> ->]; reflexivity | intros E; injection E; auto].
Qed.

Lemma list_eqb_neq (l1 l2 : list Z) : list_eqb l1 l2 = false <-> l1 <> l2.
Proof.
  rewrite <- list_eqb_eq. destruct (list_eqb l1 l2); split; congruence.
Qed.

(** The three slices of the frame, in terms of [firstn] and [skipn]. *)
Lemma trame_slices (bits : list Z) :
  (16 <= length bits)%nat ->
  slice bits None (Some 8) = firstn 8 bits
  /\ slice bits (Some (-8)) None = skipn (length bits - 8) bits
  /\ slice bits (Some 8) (Some (-8)) = firstn (length bits - 16) (skipn 8 bits).
Proof.
  intros H. split; [|split].
  - now rewrite slice_prefix by lia.
  - apply (slice_last bits 8). unfold len. lia.
  - etransitivity; [apply (slice_inner bits 8 8); unfold len; lia|].
    f_equal. lia.
Qed.

Lemma interior_length (bits : list Z) :
  (16 <= length bits)%nat -> length (interior bits) = (length bits - 16)%nat.
Proof.
  intros H. unfold interior. rewrite length_firstn, length_skipn. lia.
Qed.

(** What [trame_reception] computes, in one equation. *)
Lemma trame_reception_eq (bits : list Z) :
  trame_reception bits
  = if (length bits <? 24)%nat
       || negb (list_eqb (firstn 8 bits) (repeat 1 8))
       || negb (list_eqb (skipn (length bits - 8) bits) (repeat 0 8))
    then None
    else Some (skipn 8 (interior bits),
               if list_eqb (firstn 8 (interior bits)) [1; 1; 0; 0; 0; 0; 1; 1]
               then lit "txt" else lit "?").
Proof.
  unfold trame_reception.
  destruct (len bits <? 16) eqn:Hshort.
  - apply Z.ltb_lt in Hshort. unfold len in Hshort.
    replace (length bits <? 24)%nat with true; [reflexivity|].
    symmetry. apply Nat.ltb_lt. lia.
  - apply Z.ltb_ge in Hshort. unfold len in Hshort.
    destruct (trame_slices bits) as [-> [-> ->]]; [lia|].
    fold (interior bits).
    rewrite slice_prefix, slice_suffix by lia.
    change (Z.to_nat 8) with 8%nat.
    unfold len. rewrite interior_length by lia.
    destruct (negb (list_eqb (firstn 8 bits) (repeat 1 8))
              || negb (list_eqb (skipn (length bits - 8) bits) (repeat 0 8)))
      eqn:Hflags.
    + rewrite <- orb_assoc, Hflags, orb_true_r. reflexivity.
    + apply orb_false_iff in Hflags. destruct Hflags as [-> ->].
      rewrite !orb_false_r.
      destruct (Z.of_nat (length bits - 16) <? 8) eqn:Hcore.
      * apply Z.ltb_lt in Hcore.
        replace (length bits <? 24)%nat with true; [reflexivity|].
        symmetry. apply Nat.ltb_lt. lia.
      * apply Z.ltb_ge in Hcore.
        replace (length bits <? 24)%nat with false; [reflexivity|].
        symmetry. apply Nat.ltb_ge. lia.
Qed.

(** C6, as the code has it: a sequence of at least 24 bits (two flags and a
    protocol byte) whose first 8 bits are ones and whose last 8 bits are
    zeros is extracted without failure: the payload is what follows the
    first 8 bits of the interior, and those 8 bits give the kind "txt" when
    they are 11000011 and "?" otherwise; a sequence shorter than 24 bits, or
    with a wrong flag, is a framing failure with no partial result. *)
Theorem trame_reception_frame (bits : list Z) :
  ((24 <= length bits)%nat ->
   firstn 8 bits = repeat 1 8 ->
   skipn (length bits - 8) bits = repeat 0 8 ->
   exists type_fic,
     trame_reception bits = Some (skipn 8 (interior bits), type_fic)
     /\ (firstn 8 (interior bits) = [1; 1; 0; 0; 0; 0; 1; 1] ->
         type_fic = lit "txt")
     /\ (firstn 8 (interior bits) <> [1; 1; 0; 0; 0; 0; 1; 1] ->
         type_fic = lit "?"))
  /\ ((length bits < 24)%nat
      \/ firstn 8 bits <> repeat 1 8
      \/ skipn (length bits - 8) bits <> repeat 0 8 ->
      trame_reception bits = None).
Proof.
  rewrite trame_reception_eq. split.
  - intros Hlen Hstart Hend.
    apply Nat.ltb_ge in Hlen. apply list_eqb_eq in Hstart, Hend.
    rewrite Hlen, Hstart, Hend. simpl orb. cbv iota.
    eexists. split; [reflexivity|]. split; intros Hproto.
    + apply list_eqb_eq in Hproto. now rewrite Hproto.
    + apply list_eqb_neq in Hproto. now rewrite Hproto.
  - intros [Hlen | [Hstart | Hend]].
    + apply Nat.ltb_lt in Hlen. now rewrite Hlen.
    + apply list_eqb_neq in Hstart. rewrite Hstart.
      now rewrite orb_true_r.
    + apply list_eqb_neq in Hend. rewrite Hend.
      now rewrite !orb_true_r.
Qed.

Lemma trame_reception_frame_witness :
  exists type_fic,
    trame_reception frame_HI = Some (skipn 8 (interior frame_HI), type_fic)
    /\ (firstn 8 (interior frame_HI) = [1; 1; 0; 0; 0; 0; 1; 1] ->
        type_fic = lit "txt")
    /\ (firstn 8 (interior frame_HI) <> [1; 1; 0; 0; 0; 0; 1; 1] ->
        type_fic = lit "?").
Proof.
  apply (proj1 (trame_reception_frame frame_HI)).
  - vm_compute. lia.
  - reflexivity.
  - reflexivity.
Defined.

(** C6 as stated fails: 16 bits, both flags right, and no frame comes out,
    because no protocol byte lies between the flags. *)
Lemma trame_reception_flags_only :
  let bits := repeat 1 8 ++ repeat 0 8 in
  (16 <= length bits)%nat
  /\ firstn 8 bits = repeat 1 8
  /\ skipn (length bits - 8) bits = repeat 0 8
  /\ trame_reception bits = None.
Proof.
  repeat split; vm_compute; lia.
Qed.

(** ** Bit sequences as binary numerals *)

Lemma bit_seq_app (l1 l2 : list Z) :
  bit_seq (l1 ++ l2) <-> bit_seq l1 /\ bit_seq l2.
Proof. apply Forall_app. Qed.

Lemma bit_seq_firstn (n : nat) (l : list Z) : bit_seq l -> bit_seq (firstn n l).
Proof.
  intros H. rewrite <- (firstn_skipn n l) in H. now apply bit_seq_app in H.
Qed.

Lemma bit_seq_skipn (n : nat) (l : list Z) : bit_seq l -> bit_seq (skipn n l).
Proof.
  intros H. rewrite <- (firstn_skipn n l) in H. now apply bit_seq_app in H.
Qed.

Create HintDb bits.
#[local] Hint Resolve bit_seq_firstn bit_seq_skipn : bits.

Lemma str_bit (b : Z) : is_bit b -> str b = [48 + b].
Proof. intros [-> | ->]; reflexivity. Qed.

Lemma join_str_bits (l : list Z) : bit_seq l -> join (map str l) = digits l.
Proof.
  induction 1 as [| b l Hb _ IH]; [reflexivity|].
  unfold join in *. simpl. now rewrite IH, str_bit.
Qed.

Lemma digits_app (l1 l2 : list Z) : digits (l1 ++ l2) = digits l1 ++ digits l2.
Proof. apply map_app. Qed.

(** Reading the digits of a bit sequence continues the running value. *)
Lemma bin_value_digits (l : list Z) (acc : Z) :
  bit_seq l ->
  bin_value acc (digits l) = Some (fold_left (fun a b => 2 * a + b) l acc).
Proof.
  intros H. revert acc.
  induction H as [| b l Hb _ IH]; intros acc; [reflexivity|].
  simpl. destruct Hb as [-> | ->]; simpl; apply IH.
Qed.

Lemma int2_digits (l : list Z) :
  bit_seq l -> l <> [] -> int2 (digits l) = Ok (unsigned l).
Proof.
  intros H Hne. destruct l as [| b l]; [congruence|].
  pose proof (bin_value_digits (b :: l) 0 H) as Hv.
  inversion H as [| ? ? Hb _]; subst.
  unfold int2. destruct Hb as [-> | ->]; simpl in *; now rewrite Hv.
Qed.

Lemma fold_bits_from (l : list Z) (acc : Z) :
  fold_left (fun a b => 2 * a + b) l acc
  = acc * 2 ^ Z.of_nat (length l) + unsigned l.
Proof.
  unfold unsigned. revert acc.
  induction l as [| b l IH]; intros acc.
  - simpl. lia.
  - cbn [fold_left]. rewrite IH, (IH (2 * 0 + b)).
    change (length (b :: l)) with (S (length l)).
    rewrite Nat2Z.inj_succ, Z.pow_succ_r by lia. lia.
Qed.

Lemma unsigned_app (l1 l2 : list Z) :
  unsigned (l1 ++ l2) = unsigned l1 * 2 ^ Z.of_nat (length l2) + unsigned l2.
Proof.
  unfold unsigned at 1. rewrite fold_left_app, fold_bits_from. reflexivity.
Qed.

Lemma unsigned_bounds (l : list Z) :
  bit_seq l -> 0 <= unsigned l < 2 ^ Z.of_nat (length l).
Proof.
  induction l as [| b l IH] using rev_ind; intros H.
  - simpl. unfold unsigned. simpl. lia.
  - apply bit_seq_app in H. destruct H as [Hl Hb].
    inversion Hb as [| ? ? Hb' _]; subst.
    rewrite unsigned_app, length_app. simpl length.
    rewrite Nat2Z.inj_add, Z.pow_add_r by lia.
    specialize (IH Hl). change (unsigned [b]) with (2 * 0 + b).
    destruct Hb' as [-> | ->]; simpl Z.of_nat; lia.
Qed.

(** ** The checksum of one block *)

Lemma expected_checksum_range (D : list Z) : 0 <= expected_checksum D <= 8.
Proof.
  unfold expected_checksum.
  pose proof (Z.mod_pos_bound (unsigned D * 16) 9). lia.
Qed.

Lemma diviseur_value : int2 (lit "1001") = Ok diviseur.
Proof. reflexivity. Qed.

(** The recomputation of the source is the expected checksum of the
    specification. *)
Lemma reste_calc_bits (D : list Z) :
  bit_seq D -> reste_calc D = Ok (expected_checksum D).
Proof.
  intros H. unfold reste_calc.
  rewrite join_str_bits by assumption.
  change (lit "0000") with (digits [0; 0; 0; 0]).
  rewrite <- digits_app, int2_digits.
  - simpl bind. rewrite unsigned_app. unfold expected_checksum, diviseur.
    do 2 f_equal. change (unsigned [0; 0; 0; 0]) with 0.
    change (2 ^ Z.of_nat (length [0; 0; 0; 0])) with 16. lia.
  - apply bit_seq_app. split; [assumption|].
    repeat constructor; left; reflexivity.
  - destruct D; discriminate.
Qed.

Lemma format_04b_render4 (v : Z) :
  0 <= v < 16 -> format_04b v = digits (render4 v).
Proof.
  intros H.
  assert (E : v = 0 \/ v = 1 \/ v = 2 \/ v = 3 \/ v = 4 \/ v = 5 \/ v = 6
              \/ v = 7 \/ v = 8 \/ v = 9 \/ v = 10 \/ v = 11 \/ v = 12
              \/ v = 13 \/ v = 14 \/ v = 15) by lia.
  repeat (destruct E as [-> | E]; [reflexivity|]). now subst v.
Qed.

Lemma list_eqb_digits (l1 l2 : list Z) :
  list_eqb (digits l1) (digits l2) = list_eqb l1 l2.
Proof.
  revert l2. induction l1 as [| x l1 IH]; intros [| y l2]; try reflexivity.
  cbn [digits map list_eqb]. fold (digits l1) (digits l2).
  rewrite IH. f_equal.
  destruct (Z.eqb_spec x y), (Z.eqb_spec (48 + x) (48 + y)); auto; lia.
Qed.

Lemma verifiesb_iff (bloc : list Z) : verifiesb bloc = true <-> verifies bloc.
Proof. apply list_eqb_eq. Qed.

(** On a block of bits, the comparison of lines 103-109 decides [verifies]. *)
Lemma bloc_ok_bits (bloc : list Z) :
  bit_seq bloc -> bloc_ok bloc = Ok (verifiesb bloc).
Proof.
  intros H. unfold bloc_ok.
  rewrite (slice_prefix bloc 8), (slice_suffix bloc 8) by lia.
  change (Z.to_nat 8) with 8%nat.
  rewrite reste_calc_bits by auto with bits. cbn [bind].
  rewrite join_str_bits by auto with bits.
  rewrite format_04b_render4
    by (pose proof (expected_checksum_range (firstn 8 bloc)); lia).
  rewrite list_eqb_digits. reflexivity.
Qed.

(** ** Blocks of a sequence *)

Lemma chunks_short {A : Type} (n : nat) (l : list A) :
  (length l < n)%nat -> chunks n l = [].
Proof.
  intros H. destruct n as [| m]; [lia|]. rewrite chunks_equation_2.
  destruct (le_lt_dec (S m) (length l)); [lia | reflexivity].
Qed.

Lemma chunks_cons {A : Type} (n : nat) (l : list A) :
  (0 < n <= length l)%nat ->
  chunks n l = firstn n l :: chunks n (skipn n l).
Proof.
  intros H. destruct n as [| m]; [lia|]. rewrite chunks_equation_2.
  destruct (le_lt_dec (S m) (length l)); [reflexivity | lia].
Qed.

Lemma div_step (n len : nat) :
  (0 < n <= len)%nat -> (len / n = S ((len - n) / n))%nat.
Proof.
  intros H. replace len with (1 * n + (len - n))%nat at 1 by lia.
  rewrite Nat.div_add_l by lia. reflexivity.
Qed.

(** There are [length l / n] blocks, each of [n] elements. *)
Lemma chunks_count {A : Type} (n : nat) (l : list A) :
  (0 < n)%nat ->
  length (chunks n l) = (length l / n)%nat
  /\ Forall (fun c => length c = n) (chunks n l).
Proof.
  intros Hn. remember (length l / n)%nat as q eqn:Hq.
  revert l Hq. induction q as [| q IH]; intros l Hq.
  - rewrite chunks_short; [split; [reflexivity | constructor]|].
    symmetry in Hq. apply Nat.div_small_iff in Hq; lia.
  - assert (Hle : (n <= length l)%nat).
    { destruct (le_lt_dec n (length l)) as [Hle | Hlt]; [exact Hle|].
      rewrite Nat.div_small in Hq by exact Hlt. discriminate. }
    rewrite chunks_cons by lia.
    destruct (IH (skipn n l)) as [IHlen IHall].
    { rewrite length_skipn. rewrite (div_step n (length l)) in Hq by lia.
      now injection Hq. }
    split.
    + simpl. now rewrite IHlen.
    + constructor; [| exact IHall]. rewrite length_firstn. lia.
Qed.

(** Block [i] holds the elements [i * n .. i * n + n - 1]. *)
Lemma chunks_nth {A : Type} (n i : nat) (l : list A) :
  (0 < n)%nat -> (i < length l / n)%nat ->
  nth_error (chunks n l) i = Some (firstn n (skipn (i * n) l)).
Proof.
  intros Hn. revert l. induction i as [| i IH]; intros l Hi.
  - assert (Hle : (n <= length l)%nat).
    { destruct (le_lt_dec n (length l)) as [Hle | Hlt]; [exact Hle|].
      rewrite Nat.div_small in Hi by exact Hlt. lia. }
    rewrite chunks_cons by lia. reflexivity.
  - assert (Hle : (n <= length l)%nat).
    { destruct (le_lt_dec n (length l)) as [Hle | Hlt]; [exact Hle|].
      rewrite Nat.div_small in Hi by exact Hlt. lia. }
    rewrite chunks_cons by lia. cbn [nth_error].
    rewrite IH.
    + rewrite skipn_skipn. do 3 f_equal. lia.
    + rewrite length_skipn. rewrite (div_step n (length l)) in Hi by lia. lia.
Qed.

(** ** The validator's loop *)

Opaque slice bloc_ok.

(** From index [idx], the loop appends the data units of the complete
    blocks that remain and keeps [integrite_ok] only if all of them verify. *)
Lemma crc_loop_blocks (bits : list Z) (idx : nat) (data_res : list Z)
      (integrite_ok : bool) :
  bit_seq bits ->
  crc_loop bits idx data_res integrite_ok
  = Ok (data_res ++ concat (map data_unit (chunks 12 (skipn idx bits))),
        integrite_ok && forallb verifiesb (chunks 12 (skipn idx bits))).
Proof.
  intros Hbits.
  funelim (crc_loop bits idx data_res integrite_ok).
  - (* fewer than 12 bits remain *)
    rewrite chunks_short by (rewrite length_skipn; lia).
    simpl. now rewrite app_nil_r, andb_true_r.
  - (* one more block *)
    match goal with
    | IH : bit_seq _ -> crc_loop _ _ _ _ = _ |- _ =>
        rewrite (IH Hbits); clear IH
    end.
    match goal with E : bloc_ok _ = Ok _ |- _ => rename E into Hsame end.
    rewrite slice_window in * by lia.
    replace (Z.to_nat (Z.of_nat idx + 12) - Z.to_nat (Z.of_nat idx))%nat
      with 12%nat in * by lia.
    rewrite Nat2Z.id in *.
    rewrite slice_prefix by lia. change (Z.to_nat 8) with 8%nat.
    rewrite bloc_ok_bits in Hsame by auto with bits.
    assert (Es : same = verifiesb (firstn 12 (skipn idx bits))) by congruence.
    rewrite (chunks_cons 12 (skipn idx bits)) by (rewrite length_skipn; lia).
    cbn [map concat forallb].
    rewrite skipn_skipn, (Nat.add_comm 12 idx), <- Es.
    unfold data_unit at 2. rewrite app_assoc. f_equal.
    destruct same, integrite_ok; reflexivity.
  - (* no exception on bits *)
    match goal with
    | E : bloc_ok _ = Raise _ |- _ =>
        rewrite bloc_ok_bits in E; [discriminate|]
    end.
    rewrite slice_window by lia. auto with bits.
Qed.

Transparent slice bloc_ok.

(** What [crcreception] returns on a bit sequence. *)
Lemma crcreception_bits (bits : list Z) :
  bit_seq bits ->
  crcreception bits
  = Ok (if forallb verifiesb (chunks 12 bits)
        then Some (concat (map data_unit (chunks 12 bits)))
        else None).
Proof.
  intros H. unfold crcreception.
  rewrite crc_loop_blocks by assumption. reflexivity.
Qed.

Lemma forallb_verifies (blocs : list (list Z)) :
  forallb verifiesb blocs = true <-> Forall verifies blocs.
Proof.
  rewrite forallb_forall, Forall_forall.
  split; intros H bloc Hin; apply verifiesb_iff, H, Hin.
Qed.

(** C1: on a bit sequence the validator returns the data units of the
    complete 12-bit blocks, concatenated, if and only if every complete block
    verifies (the 4-bit rendering of the data unit times 16 modulo 9 is the
    received checksum unit); as soon as one block does not verify it returns
    [None], and no part of the data. *)
Theorem crcreception_all_or_nothing (bits : list Z) :
  bit_seq bits ->
  (crcreception bits = Ok (Some (concat (map data_unit (chunks 12 bits))))
   <-> Forall verifies (chunks 12 bits))
  /\ (Exists (fun bloc => ~ verifies bloc) (chunks 12 bits) ->
      crcreception bits = Ok None).
Proof.
  intros Hbits. rewrite (crcreception_bits bits Hbits).
  rewrite <- forallb_verifies.
  destruct (forallb verifiesb (chunks 12 bits)) eqn:Hall.
  - split; [tauto|].
    intros Hex. apply Exists_exists in Hex. destruct Hex as [bloc [Hin Hno]].
    rewrite forallb_forall in Hall. apply Hall, verifiesb_iff in Hin.
    contradiction.
  - split; [| reflexivity]. split; discriminate.
Qed.

Lemma crcreception_all_or_nothing_witness :
  let bits := protect (render8 72) ++ protect (render8 73) ++ [1; 0; 1] in
  (crcreception bits = Ok (Some (concat (map data_unit (chunks 12 bits))))
   <-> Forall verifies (chunks 12 bits))
  /\ (Exists (fun bloc => ~ verifies bloc) (chunks 12 bits) ->
      crcreception bits = Ok None).
Proof.
  apply crcreception_all_or_nothing.
  repeat (apply Forall_cons; [first [left; reflexivity | right; reflexivity]|]).
  apply Forall_nil.
Defined.

(** ** Range of the checksum *)

Lemma unsigned_render4 (v : Z) : 0 <= v < 16 -> unsigned (render4 v) = v.
Proof.
  intros H.
  assert (E : v = 0 \/ v = 1 \/ v = 2 \/ v = 3 \/ v = 4 \/ v = 5 \/ v = 6
              \/ v = 7 \/ v = 8 \/ v = 9 \/ v = 10 \/ v = 11 \/ v = 12
              \/ v = 13 \/ v = 14 \/ v = 15) by lia.
  repeat (destruct E as [-> | E]; [reflexivity|]). now subst v.
Qed.

Lemma format_04b_length (v : Z) : 0 <= v < 16 -> length (format_04b v) = 4%nat.
Proof.
  intros H. rewrite format_04b_render4 by assumption. reflexivity.
Qed.

(** A block of exactly 12 bits is the only block of its sequence. *)
Lemma chunks_single (bloc : list Z) :
  length bloc = 12%nat -> chunks 12 bloc = [bloc].
Proof.
  intros H. rewrite chunks_cons by lia.
  rewrite firstn_all2 by lia.
  rewrite chunks_short; [reflexivity|]. rewrite length_skipn. lia.
Qed.

(** C10: for every 8-bit data unit the recomputed checksum (the data unit
    read as an unsigned integer, times 16, modulo 9) lies between 0 and 8,
    so its rendering by format(_, '04b') has exactly 4 characters; hence a
    12-bit block whose received checksum unit reads as 9 to 15 fails
    verification whatever its data unit. *)
Theorem checksum_between_0_and_8 (D : list Z) :
  bit_seq D -> length D = 8%nat ->
  exists v,
    reste_calc D = Ok v
    /\ v = (unsigned D * 16) mod 9
    /\ 0 <= v <= 8
    /\ length (format_04b v) = 4%nat
    /\ forall R, bit_seq R -> length R = 4%nat -> 9 <= unsigned R <= 15 ->
                 bloc_ok (D ++ R) = Ok false
                 /\ crcreception (D ++ R) = Ok None.
Proof.
  intros HD Hlen. exists (expected_checksum D).
  pose proof (expected_checksum_range D) as Hrange.
  split; [apply reste_calc_bits, HD|].
  split; [reflexivity|]. split; [exact Hrange|].
  split; [apply format_04b_length; lia|].
  intros R HR HlenR Hhigh.
  assert (Hbloc : bit_seq (D ++ R)) by (apply bit_seq_app; auto).
  assert (Hno : verifiesb (D ++ R) = false).
  { destruct (verifiesb (D ++ R)) eqn:E; [| reflexivity].
    apply verifiesb_iff in E. unfold verifies, data_unit, checksum_unit in E.
    rewrite <- Hlen in E at 1 2.
    rewrite firstn_app, Nat.sub_diag, firstn_all, firstn_O, app_nil_r in E.
    rewrite skipn_app, Nat.sub_diag, skipn_all in E. simpl in E.
    rewrite <- E, unsigned_render4 in Hhigh; lia. }
  split.
  - now rewrite bloc_ok_bits, Hno.
  - rewrite crcreception_bits by assumption.
    rewrite chunks_single by (rewrite length_app; lia).
    cbn [forallb]. now rewrite Hno.
Qed.

Lemma checksum_between_0_and_8_witness :
  exists v,
    reste_calc (render8 72) = Ok v
    /\ v = (unsigned (render8 72) * 16) mod 9
    /\ 0 <= v <= 8
    /\ length (format_04b v) = 4%nat
    /\ forall R, bit_seq R -> length R = 4%nat -> 9 <= unsigned R <= 15 ->
                 bloc_ok (render8 72 ++ R) = Ok false
                 /\ crcreception (render8 72 ++ R) = Ok None.
Proof.
  apply checksum_between_0_and_8.
  - repeat (apply Forall_cons; [first [left; reflexivity | right; reflexivity]|]).
    apply Forall_nil.
  - reflexivity.
Defined.

(** ** Flipping one data bit *)

Lemma is_bit_flip (b : Z) : is_bit b -> is_bit (1 - b).
Proof. intros [-> | ->]; [right | left]; reflexivity. Qed.

Lemma flip_bit_seq (k : nat) (l : list Z) : bit_seq l -> bit_seq (flip k l).
Proof.
  intros H. unfold flip.
  apply bit_seq_app. split; [auto with bits|].
  apply bit_seq_app. split; [| auto with bits].
  apply Forall_map.
  eapply Forall_impl; [intros b; apply is_bit_flip|].
  apply bit_seq_firstn, bit_seq_skipn, H.
Qed.

Lemma flip_length (k : nat) (l : list Z) : length (flip k l) = length l.
Proof.
  unfold flip. rewrite !length_app, length_map, !length_firstn, !length_skipn.
  lia.
Qed.

(** A bit sequence of length 8, bit by bit. *)
Lemma eight_bits (D : list Z) :
  bit_seq D -> length D = 8%nat ->
  exists d0 d1 d2 d3 d4 d5 d6 d7,
    D = [d0; d1; d2; d3; d4; d5; d6; d7]
    /\ is_bit d0 /\ is_bit d1 /\ is_bit d2 /\ is_bit d3
    /\ is_bit d4 /\ is_bit d5 /\ is_bit d6 /\ is_bit d7.
Proof.
  intros H Hlen.
  do 8 (destruct D as [| ? D]; [discriminate|]).
  destruct D; [| discriminate].
  repeat match goal with
         | Hb : bit_seq (_ :: _) |- _ => inversion Hb; clear Hb; subst
         | Hb : Forall is_bit (_ :: _) |- _ => inversion Hb; clear Hb; subst
         end.
  do 8 eexists. repeat split; assumption.
Qed.

(** The goal compares two remainders modulo 9 of sums that differ in one
    bit: split on that bit and let [lia] see the quotients. *)
Ltac flipped_bit_cases :=
  match goal with
  | |- context [1 - ?d] =>
      match goal with
      | Hd : d = 0 \/ d = 1 |- _ =>
          destruct Hd as [-> | ->]; intros Heq;
          Z.div_mod_to_equations; lia
      end
  end.

(** The powers of 2 are invertible modulo 9: moving the data unit by one
    power of 2 moves the checksum. *)
Lemma flip_changes_checksum (k : nat) (D : list Z) :
  bit_seq D -> length D = 8%nat -> (k < 8)%nat ->
  expected_checksum (flip k D) <> expected_checksum D.
Proof.
  intros H Hlen Hk.
  destruct (eight_bits D H Hlen)
    as (d0 & d1 & d2 & d3 & d4 & d5 & d6 & d7 & -> & B).
  unfold expected_checksum, is_bit in *.
  destruct B as (B0 & B1 & B2 & B3 & B4 & B5 & B6 & B7).
  do 8 (destruct k as [| k];
        [unfold flip, unsigned; cbn [firstn skipn map app fold_left];
         clear Hk H Hlen; flipped_bit_cases |]).
  lia.
Qed.

(** C2: if a 12-bit block verifies, the block obtained by flipping any one
    of its 8 data bits, the checksum unit unchanged, does not verify. *)
Theorem data_bit_flip_detected (D R : list Z) (k : nat) :
  bit_seq D -> length D = 8%nat -> bit_seq R -> length R = 4%nat ->
  (k < 8)%nat ->
  bloc_ok (D ++ R) = Ok true ->
  bloc_ok (flip k D ++ R) = Ok false.
Proof.
  intros HD Hlen HR HlenR Hk Hok.
  assert (Hsplit : forall D', length D' = 8%nat ->
            data_unit (D' ++ R) = D' /\ checksum_unit (D' ++ R) = R).
  { intros D' H'. unfold data_unit, checksum_unit.
    rewrite <- H' at 1 2.
    rewrite firstn_app, Nat.sub_diag, firstn_all, firstn_O, app_nil_r.
    rewrite skipn_app, Nat.sub_diag, skipn_all. split; reflexivity. }
  rewrite bloc_ok_bits in Hok by (apply bit_seq_app; auto).
  injection Hok as Hok. apply verifiesb_iff in Hok. unfold verifies in Hok.
  destruct (Hsplit D Hlen) as [E1 E2]. rewrite E1, E2 in Hok.
  rewrite bloc_ok_bits
    by (apply bit_seq_app; split; [apply flip_bit_seq|]; assumption).
  f_equal. destruct (verifiesb (flip k D ++ R)) eqn:Hflip; [| reflexivity].
  apply verifiesb_iff in Hflip. unfold verifies in Hflip.
  destruct (Hsplit (flip k D)) as [F1 F2];
    [rewrite flip_length; exact Hlen|].
  rewrite F1, F2 in Hflip.
  exfalso. apply (flip_changes_checksum k D HD Hlen Hk).
  rewrite <- (unsigned_render4 (expected_checksum (flip k D))),
          <- (unsigned_render4 (expected_checksum D)).
  - now rewrite Hok, Hflip.
  - pose proof (expected_checksum_range D). lia.
  - pose proof (expected_checksum_range (flip k D)). lia.
Qed.

Lemma data_bit_flip_detected_witness :
  bloc_ok (flip 3 (render8 72) ++ render4 0) = Ok false.
Proof.
  apply data_bit_flip_detected.
  - repeat (apply Forall_cons; [first [left; reflexivity | right; reflexivity]|]).
    apply Forall_nil.
  - reflexivity.
  - repeat (apply Forall_cons; [first [left; reflexivity | right; reflexivity]|]).
    apply Forall_nil.
  - reflexivity.
  - repeat constructor.
  - reflexivity.
Defined.

(** ** Character assembly *)

Lemma chr_byte (v : Z) : 0 <= v < 256 -> chr v = Ok [v].
Proof.
  intros H. unfold chr.
  replace (v <? - 2 ^ 31) with false by (symmetry; apply Z.ltb_ge; lia).
  replace (2 ^ 31 - 1 <? v) with false by (symmetry; apply Z.ltb_ge; lia).
  replace (0 <=? v) with true by (symmetry; apply Z.leb_le; lia).
  replace (v <? 1114112) with true by (symmetry; apply Z.ltb_lt; lia).
  reflexivity.
Qed.

(** From index [i], the loop appends the characters of the complete groups
    of 8 bits that remain. *)
Lemma ASCII_loop_groups (bits : list Z) (fuel i : nat) (chaine : pystr) :
  bit_seq bits -> (length bits - i <= fuel)%nat ->
  ASCII_loop bits (range_from fuel i (length bits) 8) chaine
  = Ok (chaine ++ map unsigned (chunks 8 (skipn i bits))).
Proof.
  intros Hbits. revert i chaine.
  induction fuel as [| fuel IH]; intros i chaine Hfuel.
  - simpl. rewrite chunks_short by (rewrite length_skipn; lia).
    simpl. now rewrite app_nil_r.
  - cbn [range_from]. destruct (i <? length bits)%nat eqn:Hi.
    + apply Nat.ltb_lt in Hi. cbn [ASCII_loop].
      rewrite slice_window by lia.
      replace (Z.to_nat (Z.of_nat i + 8) - Z.to_nat (Z.of_nat i))%nat
        with 8%nat by lia.
      rewrite Nat2Z.id. unfold len. rewrite length_firstn, length_skipn.
      destruct (Z.of_nat (Nat.min 8 (length bits - i)) <? 8) eqn:Hshort.
      * (* fewer than 8 bits remain: break *)
        apply Z.ltb_lt in Hshort.
        rewrite chunks_short by (rewrite length_skipn; lia).
        simpl. now rewrite app_nil_r.
      * apply Z.ltb_ge in Hshort.
        assert (Hoct : bit_seq (firstn 8 (skipn i bits))) by auto with bits.
        assert (Hlen : length (firstn 8 (skipn i bits)) = 8%nat)
          by (rewrite length_firstn, length_skipn; lia).
        rewrite join_str_bits, int2_digits by
          (try assumption; intros E; rewrite E in Hlen; discriminate).
        cbn [bind]. rewrite chr_byte.
        -- cbn [bind]. rewrite IH by lia.
           rewrite (chunks_cons 8 (skipn i bits))
             by (rewrite length_skipn; lia).
           cbn [map]. rewrite skipn_skipn, (Nat.add_comm 8 i), <- app_assoc.
           reflexivity.
        -- pose proof (unsigned_bounds _ Hoct) as Hb.
           rewrite Hlen in Hb. change (2 ^ Z.of_nat 8) with 256 in Hb. lia.
    + apply Nat.ltb_ge in Hi. cbn [ASCII_loop].
      rewrite chunks_short by (rewrite length_skipn; lia).
      simpl. now rewrite app_nil_r.
Qed.

(** What [ASCII_decode] returns on a bit sequence. *)
Lemma ASCII_decode_bits (bits : list Z) (type_fic : pystr) :
  bit_seq bits ->
  ASCII_decode bits type_fic
  = Ok (if negb (list_eqb type_fic (lit "txt"))
           || match bits with [] => true | _ :: _ => false end
        then placeholder
        else map unsigned (chunks 8 bits)).
Proof.
  intros H. unfold ASCII_decode.
  destruct (negb (list_eqb type_fic (lit "txt"))
            || match bits with [] => true | _ :: _ => false end);
    [reflexivity|].
  unfold range. rewrite ASCII_loop_groups by (try assumption; lia).
  reflexivity.
Qed.

(** C7: on a bit sequence, when the kind is not "txt" or the sequence is
    empty the assembler returns its placeholder and decodes nothing;
    otherwise it returns the string with one character per complete group of
    8 bits, in order, the character [i] having as code point group [i] read
    as an unsigned integer; a last group of fewer than 8 bits is left out,
    and nothing is raised. *)
Theorem ASCII_decode_groups (bits : list Z) (type_fic : pystr) :
  bit_seq bits ->
  (type_fic <> lit "txt" \/ bits = [] ->
   ASCII_decode bits type_fic = Ok placeholder)
  /\ (type_fic = lit "txt" -> bits <> [] ->
      exists chaine,
        ASCII_decode bits type_fic = Ok chaine
        /\ length chaine = (length bits / 8)%nat
        /\ forall i, (i < length bits / 8)%nat ->
             nth_error chaine i
             = Some (unsigned (firstn 8 (skipn (i * 8) bits)))).
Proof.
  intros Hbits. rewrite ASCII_decode_bits by assumption. split.
  - intros [Hkind | ->].
    + apply list_eqb_neq in Hkind. now rewrite Hkind.
    + now rewrite orb_true_r.
  - intros -> Hne. destruct bits as [| b bits]; [congruence|].
    cbn [list_eqb negb orb]. change (list_eqb (lit "txt") (lit "txt")) with true.
    cbn [negb orb].
    eexists. split; [reflexivity|]. split.
    + rewrite length_map. apply chunks_count. lia.
    + intros i Hi. rewrite nth_error_map, chunks_nth by (assumption || lia).
      reflexivity.
Qed.

Lemma ASCII_decode_groups_witness :
  let bits := render8 72 ++ render8 73 ++ [1; 0; 1] in
  exists chaine,
    ASCII_decode bits (lit "txt") = Ok chaine
    /\ length chaine = (length bits / 8)%nat
    /\ forall i, (i < length bits / 8)%nat ->
         nth_error chaine i = Some (unsigned (firstn 8 (skipn (i * 8) bits))).
Proof.
  intros bits.
  assert (Hbits : bit_seq bits).
  { repeat (apply Forall_cons; [first [left; reflexivity | right; reflexivity]|]).
    apply Forall_nil. }
  apply (proj2 (ASCII_decode_groups bits (lit "txt") Hbits)).
  - reflexivity.
  - discriminate.
Defined.

(** ** From the validator to the assembler *)

Lemma data_units_length (blocs : list (list Z)) :
  Forall (fun c => length c = 12%nat) blocs ->
  length (concat (map data_unit blocs)) = (8 * length blocs)%nat.
Proof.
  induction 1 as [| c blocs Hc _ IH]; [reflexivity|].
  cbn [map concat length]. rewrite length_app, IH.
  unfold data_unit. rewrite length_firstn. lia.
Qed.

Lemma chunks_bit_seq (n : nat) (l : list Z) :
  (0 < n)%nat -> bit_seq l -> Forall bit_seq (chunks n l).
Proof.
  intros Hn Hl. apply Forall_forall. intros c Hin.
  apply In_nth_error in Hin. destruct Hin as [i Hi].
  assert (Hlt : (i < length l / n)%nat).
  { rewrite <- (proj1 (chunks_count n l Hn)).
    apply nth_error_Some. congruence. }
  rewrite chunks_nth in Hi by assumption.
  injection Hi as <-. auto with bits.
Qed.

Lemma data_units_bit_seq (blocs : list (list Z)) :
  Forall bit_seq blocs -> bit_seq (concat (map data_unit blocs)).
Proof.
  induction 1 as [| c blocs Hc _ IH]; [constructor|].
  cbn [map concat]. apply bit_seq_app. split; [| exact IH].
  unfold data_unit. auto with bits.
Qed.

(** The window starts of a loop over a sequence of whole groups all have a
    whole group after them. *)
Lemma range_whole_groups (m i : nat) :
  In i (range 0 (8 * m) 8) -> (i + 8 <= 8 * m)%nat.
Proof.
  rewrite range_values by lia.
  replace (8 * m + 8 - 1)%nat with (m * 8 + 7)%nat by lia.
  rewrite Nat.div_add_l by lia. rewrite (Nat.div_small 7 8) by lia.
  intros Hin. apply in_map_iff in Hin. destruct Hin as [k [<- Hk]].
  apply in_seq in Hk. lia.
Qed.

(** C9: when validation succeeds on a bit sequence, the data returned has
    exactly 8 * floor(length / 12) bits, a multiple of 8; so every group the
    assembler's loop takes from it holds 8 bits (its [break] never fires),
    and the text has one character for every 8 bits of data: nothing is
    left out at that stage. *)
Theorem validated_data_whole_groups (bits d : list Z) :
  bit_seq bits ->
  crcreception bits = Ok (Some d) ->
  length d = (8 * (length bits / 12))%nat
  /\ (length d mod 8 = 0)%nat
  /\ (forall i, In i (range 0 (length d) 8) ->
        len (slice d (Some (Z.of_nat i)) (Some (Z.of_nat i + 8))) = 8)
  /\ (d <> [] ->
      exists chaine,
        ASCII_decode d (lit "txt") = Ok chaine
        /\ (8 * length chaine = length d)%nat).
Proof.
  intros Hbits Hok.
  rewrite crcreception_bits in Hok by assumption.
  destruct (forallb verifiesb (chunks 12 bits)); [| discriminate].
  injection Hok as <-.
  destruct (chunks_count 12 bits) as [Hcount Hall]; [lia|].
  assert (Hlen : length (concat (map data_unit (chunks 12 bits)))
                 = (8 * (length bits / 12))%nat).
  { rewrite data_units_length by assumption. now rewrite Hcount. }
  assert (Hd : bit_seq (concat (map data_unit (chunks 12 bits)))).
  { apply data_units_bit_seq, chunks_bit_seq; [lia | assumption]. }
  set (d := concat (map data_unit (chunks 12 bits))) in *.
  split; [exact Hlen|]. split.
  - rewrite Hlen, Nat.mul_comm. apply Nat.Div0.mod_mul.
  - split.
    + intros i Hin. rewrite Hlen in Hin.
      apply range_whole_groups in Hin.
      rewrite slice_window by lia. unfold len.
      rewrite length_firstn, length_skipn. lia.
    + intros Hne.
      exists (map unsigned (chunks 8 d)). split.
      * rewrite ASCII_decode_bits by exact Hd.
        destruct d as [| b d']; [congruence | reflexivity].
      * rewrite length_map, (proj1 (chunks_count 8 d ltac:(lia))), Hlen.
        rewrite (Nat.mul_comm 8 (length bits / 12)), Nat.div_mul by lia. lia.
Qed.

Lemma validated_data_whole_groups_witness :
  let bits := blocks_HI ++ [1; 0] in
  let d := render8 72 ++ render8 73 in
  length d = (8 * (length bits / 12))%nat
  /\ (length d mod 8 = 0)%nat
  /\ (forall i, In i (range 0 (length d) 8) ->
        len (slice d (Some (Z.of_nat i)) (Some (Z.of_nat i + 8))) = 8)
  /\ (d <> [] ->
      exists chaine,
        ASCII_decode d (lit "txt") = Ok chaine
        /\ (8 * length chaine = length d)%nat).
Proof.
  intros bits d.
  apply (validated_data_whole_groups bits d).
  - repeat (apply Forall_cons; [first [left; reflexivity | right; reflexivity]|]).
    apply Forall_nil.
  - reflexivity.
Defined.

(** ** End to end *)

(** C8: the frame made of the start flag, the text protocol byte, the two
    checksum blocks of 'H' (72) and 'I' (73) and the end flag goes through
    frame extraction, checksum validation and character assembly without a
    failure, and the message is "HI". *)
Theorem decode_HI :
  lit "HI" = [72; 73]
  /\ frame_HI
     = repeat 1 8 ++ [1; 1; 0; 0; 0; 0; 1; 1]
         ++ (render8 72 ++ render4 ((72 * 16) mod 9))
         ++ (render8 73 ++ render4 ((73 * 16) mod 9))
         ++ repeat 0 8
  /\ trame_reception frame_HI = Some (blocks_HI, lit "txt")
  /\ crcreception blocks_HI = Ok (Some (render8 72 ++ render8 73))
  /\ ASCII_decode (render8 72 ++ render8 73) (lit "txt") = Ok (lit "HI")
  /\ decode_trame frame_HI = Ok (Message (lit "HI")).
Proof.
  repeat split; vm_compute; reflexivity.
Qed.

(** ** Demodulation *)

Lemma Ns_value : Ns = 220 /\ Ns = Fe / baud.
Proof. split; reflexivity. Qed.

(** [ceil_div a b] is the least number of windows of [b] samples that cover
    [a] samples. *)
Lemma ceil_div_spec (a b : nat) :
  (0 < b)%nat ->
  (a <= b * ceil_div a b)%nat /\ (b * ceil_div a b < a + b)%nat.
Proof.
  intros Hb. unfold ceil_div.
  pose proof (Nat.div_mod_eq (a + b - 1) b) as E.
  pose proof (Nat.mod_upper_bound (a + b - 1) b). lia.
Qed.

Section Demodulation_facts.

Variable np_sin : float -> float.
Variable sum_order : nat -> sum_tree.

(** The bit decided on one window. *)
Let decide (produit : list float) (i : nat) : Z :=
  if F64.gt
       (np_trapz sum_order
          (slice produit (Some (Z.of_nat i)) (Some (Z.of_nat i + Ns))))
       (F64.of_int 0)
  then 1 else 0.

Lemma demodulate_loop_map (produit : list float) (starts : list nat)
      (bits : list Z) :
  demodulate_loop sum_order produit starts bits
  = bits ++ map (decide produit) starts.
Proof.
  revert bits. induction starts as [| i rest IH]; intros bits.
  - simpl. now rewrite app_nil_r.
  - cbn [demodulate_loop map]. rewrite IH, <- app_assoc. reflexivity.
Qed.

(** One bit per window start. *)
Lemma demodulate_signal_windows (signal : list float) (Fe_used : Z) :
  demodulate_signal np_sin sum_order signal Fe_used
  = map (fun k =>
           decide (np_mul signal
                     (carrier np_sin (instants (length signal) Fe_used)))
                  (k * 220))
        (seq 0 (ceil_div (length signal) 220)).
Proof.
  unfold demodulate_signal. rewrite demodulate_loop_map. cbn [app].
  change (Z.to_nat Ns) with 220%nat.
  rewrite range_values by lia. rewrite map_map. reflexivity.
Qed.

Lemma demodulate_signal_length (signal : list float) (Fe_used : Z) :
  length (demodulate_signal np_sin sum_order signal Fe_used)
  = ceil_div (length signal) 220.
Proof.
  rewrite demodulate_signal_windows, length_map, length_seq. reflexivity.
Qed.

End Demodulation_facts.

(** C4, as the code has it: whatever sample rate is passed in, the
    demodulator cuts the signal in windows of the global [Ns] = 220 samples
    (the global rate 44100 divided by 200 baud, rounded down) and returns
    exactly ceil(sampleCount / 220) bits; an empty signal gives no bit. *)
Theorem demodulate_signal_count (np_sin : float -> float)
        (sum_order : nat -> sum_tree) (signal : list float) (Fe_used : Z) :
  Ns = Fe / baud
  /\ Ns = 220
  /\ length (demodulate_signal np_sin sum_order signal Fe_used)
     = ceil_div (length signal) (Z.to_nat Ns)
  /\ demodulate_signal np_sin sum_order [] Fe_used = [].
Proof.
  split; [reflexivity|]. split; [reflexivity|].
  split; [apply demodulate_signal_length | reflexivity].
Qed.

(** C4 as stated fails: at a rate of 8000 samples per second the claim
    counts windows of 8000 / 200 = 40 samples, so 6 bits for 221 samples; the
    demodulator returns 2. *)
Lemma window_count_ignores_rate :
  exists (signal : list float) (Fe_used : Z),
    0 < Fe_used
    /\ forall np_sin sum_order,
         length (demodulate_signal np_sin sum_order signal Fe_used)
         <> ceil_div (length signal) (Z.to_nat (Fe_used / baud)).
Proof.
  exists (repeat F64.zero 221), 8000. split; [lia|].
  intros np_sin sum_order.
  rewrite demodulate_signal_length, repeat_length. vm_compute. discriminate.
Qed.

(** ** The bit decision *)

(** [x > 0] holds exactly for the strictly positive floats; zeros of either
    sign and NaN are not above 0. *)
Lemma gt_zero_positive (x : float) :
  F64.gt x (F64.of_int 0) = true <-> positive_float x.
Proof.
  destruct x as [s | s | | s m e]; try destruct s; cbn; intuition congruence.
Qed.

Lemma null_not_gt (x : float) : null x -> F64.gt x (F64.of_int 0) = false.
Proof. intros [[s ->] | ->]; reflexivity. Qed.

Lemma null_zero (s : bool) : null (S754_zero s).
Proof. left. now exists s. Qed.

Lemma null_nan : null S754_nan.
Proof. now right. Qed.

Create HintDb floats.
#[local] Hint Resolve null_zero null_nan : floats.

Lemma null_add (x y : float) : null x -> null y -> null (F64.add x y).
Proof.
  intros [[sx ->] | ->] [[sy ->] | ->]; try destruct sx; try destruct sy;
    cbn; auto with floats.
Qed.

Lemma null_mul_zero (x y : float) : is_zero x -> null (F64.mul x y).
Proof.
  intros [sx ->]. destruct y; cbn; auto with floats.
Qed.

Lemma null_scaled (s : bool) (m : positive) (e : Z) (x : float) :
  null x ->
  null (F64.mul (S754_finite s m e) x) /\ null (F64.div x (S754_finite s m e)).
Proof.
  intros [[sx ->] | ->]; cbn; auto with floats.
Qed.

(** One term of the trapezoid sum on two null samples. *)
Lemma null_trapezoid (a b : float) :
  null a -> null b ->
  null (F64.div (F64.mul F64.one (F64.add a b)) F64.two).
Proof.
  intros Ha Hb.
  apply (null_scaled false 4503599627370496 (-51)).
  apply (null_scaled false 4503599627370496 (-52)).
  apply null_add; assumption.
Qed.

Lemma Forall_slice {A : Type} (P : A -> Prop) (l : list A) (lo hi : option Z) :
  Forall P l -> Forall P (slice l lo hi).
Proof.
  intros H. unfold slice.
  set (a := Z.to_nat _). set (n := Z.to_nat _). clearbody a n.
  rewrite <- (firstn_skipn n l) in H. apply Forall_app in H.
  destruct H as [_ H].
  rewrite <- (firstn_skipn a (skipn n l)) in H. now apply Forall_app in H.
Qed.

Lemma null_sum_along (terms : list float) (t : sum_tree) :
  Forall null terms -> null (sum_along terms t).
Proof.
  intros H. induction t as [i | s | l IHl r IHr]; cbn [sum_along].
  - destruct (nth_in_or_default i terms F64.zero) as [Hin | ->].
    + rewrite Forall_forall in H. now apply H.
    + apply null_zero.
  - apply null_zero.
  - now apply null_add.
Qed.

Lemma null_trapz (sum_order : nat -> sum_tree) (y : list float) :
  Forall null y -> null (np_trapz sum_order y).
Proof.
  intros H. unfold np_trapz, np_sum.
  match goal with |- null match ?terms with _ => _ end =>
    assert (Hterms : Forall null terms); [| destruct terms as [| x terms']]
  end.
  - apply Forall_forall. intros x Hin.
    apply in_map_iff in Hin. destruct Hin as [[a b] [<- Hab]].
    pose proof (in_combine_l _ _ _ _ Hab) as Ha.
    pose proof (in_combine_r _ _ _ _ Hab) as Hb.
    apply null_trapezoid.
    + eapply Forall_forall; [apply Forall_slice, H | exact Ha].
    + eapply Forall_forall; [apply Forall_slice, H | exact Hb].
  - apply null_zero.
  - now apply null_sum_along.
Qed.

Lemma null_np_mul (a b : list float) :
  Forall is_zero a -> Forall null (np_mul a b).
Proof.
  intros H. revert b. induction H as [| x a Hx _ IH]; intros b.
  - constructor.
  - destruct b as [| y b]; [constructor|].
    unfold np_mul in *. cbn [combine map]. constructor; [| apply IH].
    now apply null_mul_zero.
Qed.

Lemma produit_nth_from (np_sin : float -> float) (Fe_used : Z)
      (l : list float) (j s : nat) (x : float) :
  nth_error l j = Some x ->
  nth_error
    (np_mul l
       (carrier np_sin
          (map (fun i => F64.div (F64.of_int (Z.of_nat i)) (F64.of_int Fe_used))
               (seq s (length l))))) j
  = Some (F64.mul x
            (np_sin (F64.mul pulsation
                       (F64.div (F64.of_int (Z.of_nat (s + j)))
                                (F64.of_int Fe_used))))).
Proof.
  unfold np_mul, carrier. revert j s.
  induction l as [| y l IH]; intros j s Hj; [destruct j; discriminate|].
  destruct j as [| j]; cbn [length seq map combine nth_error] in *.
  - injection Hj as ->. now rewrite Nat.add_0_r.
  - rewrite (IH j (S s) Hj). do 6 f_equal. lia.
Qed.

(** Sample [j] of the product: the signal sample times the carrier at the
    instant [j / Fe_used], counted from the start of the signal. *)
Lemma produit_nth (np_sin : float -> float) (signal : list float)
      (Fe_used : Z) (j : nat) (x : float) :
  nth_error signal j = Some x ->
  nth_error (np_mul signal (carrier np_sin (instants (length signal) Fe_used))) j
  = Some (F64.mul x
            (np_sin (F64.mul pulsation
                       (F64.div (F64.of_int (Z.of_nat j))
                                (F64.of_int Fe_used))))).
Proof.
  intros Hj. unfold instants.
  now rewrite (produit_nth_from np_sin Fe_used signal j 0 x Hj).
Qed.

Lemma nth_error_map_seq {B : Type} (f : nat -> B) (n k : nat) :
  (k < n)%nat -> nth_error (map f (seq 0 n)) k = Some (f k).
Proof.
  intros H. rewrite nth_error_map, nth_error_seq.
  apply Nat.ltb_lt in H. now rewrite H.
Qed.

(** Bit [k] of the demodulator is the decision on window [k]. *)
Lemma demodulate_signal_nth (np_sin : float -> float)
      (sum_order : nat -> sum_tree) (signal : list float) (Fe_used : Z)
      (k : nat) :
  (k < length (demodulate_signal np_sin sum_order signal Fe_used))%nat ->
  nth_error (demodulate_signal np_sin sum_order signal Fe_used) k
  = Some (if F64.gt
               (np_trapz sum_order
                  (firstn 220
                     (skipn (k * 220)
                        (np_mul signal
                           (carrier np_sin
                              (instants (length signal) Fe_used))))))
               (F64.of_int 0)
          then 1 else 0).
Proof.
  rewrite demodulate_signal_length, demodulate_signal_windows. intros Hk.
  rewrite nth_error_map_seq by exact Hk.
  rewrite slice_window by (change Ns with 220; lia).
  change Ns with 220.
  replace (Z.to_nat (Z.of_nat (k * 220) + 220) - Z.to_nat (Z.of_nat (k * 220)))%nat
    with 220%nat by lia.
  rewrite Nat2Z.id. reflexivity.
Qed.



(** * Further properties of the decoding chain *)

(** ** Blocks of concatenations *)

Lemma chunks_app_block {A : Type} (n : nat) (b rest : list A) :
  (0 < n)%nat -> length b = n -> chunks n (b ++ rest) = b :: chunks n rest.
Proof.
  intros Hn Hb. rewrite chunks_cons by (rewrite length_app; lia).
  subst n.
  rewrite firstn_app, Nat.sub_diag, firstn_all, firstn_O, app_nil_r.
  rewrite skipn_app, Nat.sub_diag, skipn_all. reflexivity.
Qed.

Lemma chunks_concat {A : Type} (n : nat) (blocs : list (list A)) (tail : list A) :
  (0 < n)%nat -> Forall (fun b => length b = n) blocs ->
  (length tail < n)%nat ->
  chunks n (concat blocs ++ tail) = blocs.
Proof.
  intros Hn Hall Htail. induction Hall as [| b blocs Hb _ IH].
  - simpl. now apply chunks_short.
  - cbn [concat]. rewrite <- app_assoc, chunks_app_block by assumption.
    now rewrite IH.
Qed.

(** A sequence is its complete blocks followed by fewer than [n] elements. *)
Lemma chunks_rest {A : Type} (n : nat) (l : list A) :
  (0 < n)%nat ->
  l = concat (chunks n l) ++ skipn (n * (length l / n)) l
  /\ (length (skipn (n * (length l / n)) l) < n)%nat.
Proof.
  intros Hn. split.
  - remember (length l / n)%nat as q eqn:Hq. revert l Hq.
    induction q as [| q IH]; intros l Hq.
    + rewrite chunks_short, Nat.mul_0_r; [reflexivity|].
      symmetry in Hq. apply Nat.div_small_iff in Hq; lia.
    + assert (Hle : (n <= length l)%nat).
      { destruct (le_lt_dec n (length l)) as [Hle | Hlt]; [exact Hle|].
        rewrite Nat.div_small in Hq by exact Hlt. discriminate. }
      rewrite chunks_cons by lia. cbn [concat]. rewrite <- app_assoc.
      replace (n * S q)%nat with (n * q + n)%nat by lia.
      rewrite <- skipn_skipn.
      rewrite <- (IH (skipn n l)).
      * symmetry. apply firstn_skipn.
      * rewrite length_skipn. rewrite (div_step n (length l)) in Hq by lia.
        now injection Hq.
  - rewrite length_skipn.
    pose proof (Nat.div_mod_eq (length l) n).
    pose proof (Nat.mod_upper_bound (length l) n). lia.
Qed.

Lemma chunks_app {A : Type} (n : nat) (a b : list A) :
  (0 < n)%nat -> (length a mod n = 0)%nat ->
  chunks n (a ++ b) = chunks n a ++ chunks n b.
Proof.
  intros Hn Hmod.
  destruct (chunks_rest n a Hn) as [Ha Hrest].
  destruct (chunks_count n a Hn) as [_ Hall].
  assert (Hnil : skipn (n * (length a / n)) a = []).
  { apply skipn_all2. pose proof (Nat.div_mod_eq (length a) n). lia. }
  rewrite Hnil, app_nil_r in Ha.
  rewrite Ha at 1. clear Ha Hrest Hnil.
  induction Hall as [| c blocs Hc _ IH]; [reflexivity|].
  cbn [concat]. rewrite <- !app_assoc, chunks_app_block by assumption.
  rewrite IH. reflexivity.
Qed.

(** ** Frames in and out *)

Lemma firstn_app_exact {A : Type} (a b : list A) (n : nat) :
  length a = n -> firstn n (a ++ b) = a /\ skipn n (a ++ b) = b.
Proof.
  intros <-. split.
  - now rewrite firstn_app, Nat.sub_diag, firstn_all, firstn_O, app_nil_r.
  - now rewrite skipn_app, Nat.sub_diag, skipn_all.
Qed.

(** The parts of a built frame. *)
Lemma frame_of_parts (protocole payload : list Z) :
  length protocole = 8%nat ->
  length (frame_of protocole payload) = (24 + length payload)%nat
  /\ firstn 8 (frame_of protocole payload) = repeat 1 8
  /\ skipn (length (frame_of protocole payload) - 8)
       (frame_of protocole payload) = repeat 0 8
  /\ interior (frame_of protocole payload) = protocole ++ payload.
Proof.
  intros Hp.
  assert (Hlen : length (frame_of protocole payload)
                 = (24 + length payload)%nat).
  { unfold frame_of. rewrite !length_app, !repeat_length. lia. }
  split; [exact Hlen|]. split; [reflexivity|]. split.
  - rewrite Hlen. unfold frame_of.
    replace (repeat 1 8 ++ protocole ++ payload ++ repeat 0 8)
      with ((repeat 1 8 ++ protocole ++ payload) ++ repeat 0 8)
      by (now rewrite <- !app_assoc).
    assert (H : length (repeat 1 8 ++ protocole ++ payload)
                = (24 + length payload - 8)%nat)
      by (rewrite !length_app, repeat_length; lia).
    apply (proj2 (firstn_app_exact _ (repeat 0 8) _ H)).
  - unfold interior. rewrite Hlen. unfold frame_of.
    change (skipn 8 (repeat 1 8 ++ protocole ++ payload ++ repeat 0 8))
      with (protocole ++ payload ++ repeat 0 8).
    rewrite app_assoc.
    assert (H : length (protocole ++ payload)
                = (24 + length payload - 16)%nat)
      by (rewrite length_app; lia).
    apply (proj1 (firstn_app_exact _ (repeat 0 8) _ H)).
Qed.

(** X1: frame extraction succeeds exactly on the sequences made of eight
    ones, a protocol byte, a payload and eight zeros; it returns that payload
    unchanged, whatever its length and content, and the kind "txt" for the
    protocol byte 11000011, "?" for any other. *)
Theorem trame_reception_exact (bits data_crc : list Z) (type_fic : pystr) :
  trame_reception bits = Some (data_crc, type_fic)
  <-> exists protocole,
        length protocole = 8%nat
        /\ bits = frame_of protocole data_crc
        /\ type_fic = if list_eqb protocole text_protocol
                      then lit "txt" else lit "?".
Proof.
  rewrite trame_reception_eq. split.
  - destruct (length bits <? 24)%nat eqn:Hlen; [discriminate|].
    destruct (list_eqb (firstn 8 bits) (repeat 1 8)) eqn:Hstart;
      [| discriminate].
    destruct (list_eqb (skipn (length bits - 8) bits) (repeat 0 8)) eqn:Hend;
      [| discriminate].
    cbn [negb orb]. intros E. injection E as Hdata Hkind.
    apply Nat.ltb_ge in Hlen. apply list_eqb_eq in Hstart, Hend.
    exists (firstn 8 (interior bits)). split; [| split].
    + rewrite length_firstn, interior_length by lia. lia.
    + unfold frame_of. rewrite <- Hdata, <- Hstart, <- Hend.
      rewrite (app_assoc (firstn 8 (interior bits))), firstn_skipn.
      unfold interior.
      replace (length bits - 8)%nat with (length bits - 16 + 8)%nat by lia.
      rewrite <- skipn_skipn, firstn_skipn, firstn_skipn. reflexivity.
    + now rewrite <- Hkind.
  - intros [protocole [Hp [-> ->]]].
    destruct (frame_of_parts protocole data_crc Hp) as (Hlen & Hs & He & Hi).
    rewrite Hs, He, Hi, Hlen.
    replace (24 + length data_crc <? 24)%nat with false
      by (symmetry; apply Nat.ltb_ge; lia).
    change (list_eqb (repeat 1 8) (repeat 1 8)) with true.
    change (list_eqb (repeat 0 8) (repeat 0 8)) with true.
    cbn [negb orb].
    destruct (firstn_app_exact protocole data_crc 8 Hp) as [-> ->].
    reflexivity.
Qed.

Lemma trame_reception_exact_witness :
  trame_reception (frame_of text_protocol [1; 0; 1]) = Some ([1; 0; 1], lit "txt").
Proof.
  apply trame_reception_exact. exists text_protocol.
  split; [reflexivity|]. split; reflexivity.
Defined.

(** ** Renderings *)

Lemma render4_bit_seq (v : Z) : bit_seq (render4 v).
Proof.
  unfold render4.
  repeat (apply Forall_cons;
          [match goal with |- is_bit (?x mod 2) =>
             pose proof (Z.mod_pos_bound x 2 ltac:(lia)); unfold is_bit; lia
           end|]).
  apply Forall_nil.
Qed.

Lemma render8_bit_seq (v : Z) : bit_seq (render8 v).
Proof. apply bit_seq_app. split; apply render4_bit_seq. Qed.

Lemma render8_length (v : Z) : length (render8 v) = 8%nat.
Proof. reflexivity. Qed.

Lemma render4_mod16 (v : Z) : render4 v = render4 (v mod 16).
Proof.
  unfold render4.
  assert (H : forall d, (d = 1 \/ d = 2 \/ d = 4 \/ d = 8) ->
                        (v mod 16) / d mod 2 = v / d mod 2).
  { intros d Hd. Z.div_mod_to_equations. lia. }
  rewrite (H 8), (H 4), (H 2) by lia.
  pose proof (H 1 ltac:(lia)) as H1. rewrite !Z.div_1_r in H1.
  now rewrite H1.
Qed.

Lemma unsigned_render8 (v : Z) : is_byte v -> unsigned (render8 v) = v.
Proof.
  intros Hv. unfold is_byte in Hv. unfold render8.
  rewrite unsigned_app, (render4_mod16 v).
  rewrite !unsigned_render4.
  - change (2 ^ Z.of_nat (length (render4 (v mod 16)))) with 16.
    pose proof (Z.div_mod v 16). lia.
  - apply Z.mod_pos_bound. lia.
  - split; [apply Z.div_pos; lia | apply Z.div_lt_upper_bound; lia].
Qed.

Lemma protect_block (D : list Z) :
  length D = 8%nat ->
  length (protect D) = 12%nat /\ data_unit (protect D) = D
  /\ verifiesb (protect D) = true.
Proof.
  intros HD. unfold protect.
  destruct (firstn_app_exact D (render4 (expected_checksum D)) 8 HD)
    as [E1 E2].
  split; [rewrite length_app; simpl; lia|].
  split; [exact E1|].
  unfold verifiesb, data_unit, checksum_unit. rewrite E1, E2.
  now apply list_eqb_eq.
Qed.

Lemma protect_bit_seq (D : list Z) : bit_seq D -> bit_seq (protect D).
Proof.
  intros H. apply bit_seq_app. split; [exact H | apply render4_bit_seq].
Qed.

Lemma protect_all_blocks (units : list (list Z)) :
  Forall (fun D => length D = 8%nat) units ->
  protect_all units = concat (map protect units)
  /\ Forall (fun b => length b = 12%nat) (map protect units)
  /\ concat (map data_unit (map protect units)) = concat units
  /\ forallb verifiesb (map protect units) = true.
Proof.
  intros H. split; [apply flat_map_concat_map|].
  induction H as [| D units HD _ [IH1 [IH2 IH3]]].
  - repeat split. constructor.
  - destruct (protect_block D HD) as (Hlen & Hdata & Hok).
    cbn [map concat forallb]. split; [constructor; assumption|].
    split; [now rewrite Hdata, IH2 | now rewrite Hok, IH3].
Qed.

Lemma protect_all_bit_seq (units : list (list Z)) :
  Forall bit_seq units -> bit_seq (protect_all units).
Proof.
  induction 1 as [| D units HD _ IH]; [constructor|].
  unfold protect_all in *. cbn [flat_map].
  apply bit_seq_app. split; [now apply protect_bit_seq | exact IH].
Qed.

(** ** The validator on what a sender builds *)

(** X2: round trip of the checksum.  Data units of 8 bits, each followed by
    the 4-bit rendering of its remainder modulo 9, are accepted by the
    validator, which returns exactly the data units, concatenated; up to 11
    bits after the last block change nothing. *)
Theorem crcreception_protect_all (units : list (list Z)) (tail : list Z) :
  Forall bit_seq units -> Forall (fun D => length D = 8%nat) units ->
  bit_seq tail -> (length tail < 12)%nat ->
  crcreception (protect_all units ++ tail) = Ok (Some (concat units)).
Proof.
  intros Hbits Hlen Htail Hshort.
  destruct (protect_all_blocks units Hlen) as (Econcat & Hblocs & Hdata & Hok).
  rewrite crcreception_bits
    by (apply bit_seq_app; split; [apply protect_all_bit_seq|]; assumption).
  rewrite Econcat, chunks_concat by (assumption || lia).
  now rewrite Hok, Hdata.
Qed.

Lemma crcreception_protect_all_witness :
  crcreception (protect_all [render8 72; render8 73] ++ [1; 1; 0])
  = Ok (Some (concat [render8 72; render8 73])).
Proof.
  apply crcreception_protect_all.
  - repeat (apply Forall_cons; [apply render8_bit_seq|]). apply Forall_nil.
  - repeat (apply Forall_cons; [reflexivity|]). apply Forall_nil.
  - repeat (apply Forall_cons; [first [left; reflexivity | right; reflexivity]|]).
    apply Forall_nil.
  - simpl. lia.
Defined.

(** X3: the validator works block by block.  When the first part of a bit
    sequence is a whole number of 12-bit blocks, validating the whole is
    validating both parts: the data of the two parts concatenated when both
    are accepted, [None] when either is rejected. *)
Theorem crcreception_app (a b : list Z) :
  bit_seq a -> bit_seq b -> (length a mod 12 = 0)%nat ->
  crcreception (a ++ b)
  = (da <- crcreception a ;;
     db <- crcreception b ;;
     Ok match da, db with
        | Some x, Some y => Some (x ++ y)
        | _, _ => None
        end).
Proof.
  intros Ha Hb Hmod.
  rewrite !crcreception_bits
    by (try apply bit_seq_app; try split; assumption).
  rewrite chunks_app by (assumption || lia).
  rewrite forallb_app, map_app, concat_app. cbn [bind].
  destruct (forallb verifiesb (chunks 12 a)),
    (forallb verifiesb (chunks 12 b)); reflexivity.
Qed.

Lemma crcreception_app_witness :
  crcreception (protect (render8 72) ++ protect (render8 73))
  = (da <- crcreception (protect (render8 72)) ;;
     db <- crcreception (protect (render8 73)) ;;
     Ok match da, db with
        | Some x, Some y => Some (x ++ y)
        | _, _ => None
        end).
Proof.
  apply crcreception_app.
  - apply protect_bit_seq, render8_bit_seq.
  - apply protect_bit_seq, render8_bit_seq.
  - reflexivity.
Defined.

(** X4: bits after the last complete block are not looked at.  The validator
    gives the same result on a bit sequence and on that sequence cut after
    its last complete 12-bit block. *)
Theorem crcreception_ignores_rest (bits : list Z) :
  bit_seq bits ->
  crcreception bits = crcreception (firstn (12 * (length bits / 12)) bits).
Proof.
  intros H.
  rewrite !crcreception_bits by auto with bits.
  destruct (chunks_rest 12 bits) as [Hsplit Hrest]; [lia|].
  destruct (chunks_count 12 bits) as [Hcount Hall]; [lia|].
  assert (E : firstn (12 * (length bits / 12)) bits = concat (chunks 12 bits)).
  { assert (Hlen : length (concat (chunks 12 bits))
                   = (12 * (length bits / 12))%nat).
    { rewrite <- Hcount. clear Hsplit Hrest Hcount.
      induction Hall as [| c blocs Hc _ IH]; [reflexivity|].
      cbn [concat length]. rewrite length_app, IH, Hc. lia. }
    pose proof (proj1 (firstn_app_exact (concat (chunks 12 bits))
                         (skipn (12 * (length bits / 12)) bits) _ Hlen)) as F.
    now rewrite <- Hsplit in F. }
  rewrite E.
  assert (C : chunks 12 (concat (chunks 12 bits)) = chunks 12 bits).
  { rewrite <- (app_nil_r (concat (chunks 12 bits))).
    apply chunks_concat; [lia | assumption | simpl; lia]. }
  now rewrite C.
Qed.

Lemma crcreception_ignores_rest_witness :
  crcreception (protect (render8 72) ++ [1; 0; 1])
  = crcreception
      (firstn (12 * (length (protect (render8 72) ++ [1; 0; 1]) / 12))
         (protect (render8 72) ++ [1; 0; 1])).
Proof.
  apply crcreception_ignores_rest.
  apply bit_seq_app. split; [apply protect_bit_seq, render8_bit_seq|].
  repeat (apply Forall_cons; [first [left; reflexivity | right; reflexivity]|]).
  apply Forall_nil.
Defined.

(** ** One wrong bit in a message *)

Lemma flip_app_mid (a b c : list Z) (j : nat) :
  (j < length b)%nat ->
  flip (length a + j) (a ++ b ++ c) = a ++ flip j b ++ c.
Proof.
  intros Hj. unfold flip.
  destruct (skipn_cons b j Hj) as [x [_ Hx]].
  assert (S1 : skipn (length a + j) (a ++ b ++ c) = skipn j b ++ c).
  { rewrite skipn_app, skipn_all2 by lia.
    replace (length a + j - length a)%nat with j by lia.
    rewrite skipn_app. replace (j - length b)%nat with 0%nat by lia.
    reflexivity. }
  assert (S2 : skipn (S (length a + j)) (a ++ b ++ c) = skipn (S j) b ++ c).
  { rewrite skipn_app, skipn_all2 by lia.
    replace (S (length a + j) - length a)%nat with (S j) by lia.
    rewrite skipn_app. replace (S j - length b)%nat with 0%nat by lia.
    reflexivity. }
  rewrite S1, S2, Hx. cbn [app firstn map].
  rewrite firstn_app, firstn_all2 by lia.
  replace (length a + j - length a)%nat with j by lia.
  rewrite firstn_app. replace (j - length b)%nat with 0%nat by lia.
  rewrite firstn_O, app_nil_r, <- !app_assoc. reflexivity.
Qed.

(** Whatever bit of a verifying block is flipped, the block no longer
    verifies. *)
Lemma block_flip_fails (bloc : list Z) (j : nat) :
  bit_seq bloc -> length bloc = 12%nat -> (j < 12)%nat ->
  verifiesb bloc = true -> verifiesb (flip j bloc) = false.
Proof.
  intros Hbits Hlen Hj Hok.
  destruct (verifiesb (flip j bloc)) eqn:Hflip; [| reflexivity].
  exfalso. apply verifiesb_iff in Hok, Hflip.
  do 12 (destruct bloc as [| ? bloc]; [discriminate|]).
  destruct bloc; [| discriminate].
  assert (HD : bit_seq [z; z0; z1; z2; z3; z4; z5; z6])
    by apply (bit_seq_firstn 8 _ Hbits).
  assert (HR : bit_seq [z7; z8; z9; z10])
    by apply (bit_seq_skipn 8 _ Hbits).
  unfold verifies in *.
  cbn [data_unit checksum_unit firstn skipn] in Hok.
  destruct (le_lt_dec 8 j) as [Hhigh | Hlow].
  - (* a checksum bit *)
    do 8 (destruct j as [| j]; [lia|]).
    do 4 (destruct j as [| j];
          [unfold flip in Hflip;
           cbn [data_unit checksum_unit firstn skipn map app] in Hflip;
           rewrite Hok in Hflip; apply (f_equal unsigned) in Hflip;
           unfold unsigned in Hflip; cbn [fold_left] in Hflip; lia|]).
    lia.
  - (* a data bit *)
    apply (flip_changes_checksum j [z; z0; z1; z2; z3; z4; z5; z6] HD
             eq_refl Hlow).
    rewrite <- (unsigned_render4
                  (expected_checksum (flip j [z; z0; z1; z2; z3; z4; z5; z6]))),
            <- (unsigned_render4
                  (expected_checksum [z; z0; z1; z2; z3; z4; z5; z6])).
    + rewrite Hok. f_equal.
      do 8 (destruct j as [| j];
            [unfold flip in *;
             cbn [data_unit checksum_unit firstn skipn map app] in *;
             exact Hflip|]).
      lia.
    + pose proof (expected_checksum_range [z; z0; z1; z2; z3; z4; z5; z6]). lia.
    + pose proof (expected_checksum_range
                    (flip j [z; z0; z1; z2; z3; z4; z5; z6])). lia.
Qed.

(** X5: every single wrong bit inside the complete blocks is detected.  If
    the validator accepts a bit sequence, it rejects the sequence obtained by
    flipping any one bit of any complete 12-bit block, data bit or checksum
    bit alike. *)
Theorem crcreception_detects_one_flip (bits d : list Z) (p : nat) :
  bit_seq bits ->
  crcreception bits = Ok (Some d) ->
  (p < 12 * (length bits / 12))%nat ->
  crcreception (flip p bits) = Ok None.
Proof.
  intros Hbits Hok Hp.
  rewrite crcreception_bits in Hok by assumption.
  destruct (forallb verifiesb (chunks 12 bits)) eqn:Hall; [| discriminate].
  clear Hok.
  set (k := (p / 12)%nat). set (j := (p mod 12)%nat).
  assert (Hpk : p = (12 * k + j)%nat) by apply Nat.div_mod_eq.
  assert (Hj : (j < 12)%nat) by (apply Nat.mod_upper_bound; lia).
  assert (Hk : (12 * k + 12 <= length bits)%nat).
  { pose proof (Nat.div_mod_eq (length bits) 12).
    assert (k < length bits / 12)%nat by nia. nia. }
  set (a := firstn (12 * k) bits).
  set (bloc := firstn 12 (skipn (12 * k) bits)).
  set (c := skipn 12 (skipn (12 * k) bits)).
  assert (Hsplit : bits = a ++ bloc ++ c).
  { unfold a, bloc, c. now rewrite !firstn_skipn. }
  assert (Ha : length a = (12 * k)%nat)
    by (unfold a; rewrite length_firstn; lia).
  assert (Hb : length bloc = 12%nat)
    by (unfold bloc; rewrite length_firstn, length_skipn; lia).
  assert (Hamod : (length a mod 12 = 0)%nat)
    by (rewrite Ha, Nat.mul_comm; apply Nat.Div0.mod_mul).
  assert (Hbloc : bit_seq bloc) by (unfold bloc; auto with bits).
  rewrite Hsplit in Hall.
  rewrite chunks_app, chunks_app_block in Hall by (assumption || lia).
  rewrite forallb_app in Hall. cbn [forallb] in Hall.
  apply andb_true_iff in Hall. destruct Hall as [_ Hall].
  apply andb_true_iff in Hall. destruct Hall as [Hblocok _].
  rewrite crcreception_bits by (apply flip_bit_seq; assumption).
  rewrite Hsplit, Hpk, <- Ha, flip_app_mid by lia.
  rewrite chunks_app, chunks_app_block
    by (assumption || lia || (rewrite flip_length; assumption)).
  rewrite forallb_app. cbn [forallb].
  rewrite (block_flip_fails bloc j) by assumption.
  now rewrite andb_false_r.
Qed.

Lemma crcreception_detects_one_flip_witness :
  crcreception (flip 17 (protect (render8 72) ++ protect (render8 73)))
  = Ok None.
Proof.
  apply (crcreception_detects_one_flip _ (render8 72 ++ render8 73)).
  - apply bit_seq_app; split; apply protect_bit_seq, render8_bit_seq.
  - reflexivity.
  - vm_compute. lia.
Defined.

(** ** Elements that are not bits *)

Lemma str_digit (b : Z) : is_digit b -> str b = [48 + b].
Proof.
  unfold is_digit. intros H.
  assert (E : b = 0 \/ b = 1 \/ b = 2 \/ b = 3 \/ b = 4 \/ b = 5 \/ b = 6
              \/ b = 7 \/ b = 8 \/ b = 9) by lia.
  repeat (destruct E as [-> | E]; [reflexivity|]). now subst b.
Qed.

Lemma join_str_digits (l : list Z) :
  Forall is_digit l -> join (map str l) = digits l.
Proof.
  induction 1 as [| b l Hb _ IH]; [reflexivity|].
  unfold join in *. simpl. now rewrite IH, str_digit.
Qed.

(** A digit above 1 stops the reading of a binary numeral. *)
Lemma bin_value_wrong_digit (l : list Z) (rest : pystr) (acc : Z) :
  Forall is_digit l -> Exists (fun b => 2 <= b) l ->
  bin_value acc (digits l ++ rest) = None.
Proof.
  intros Hd Hex. revert acc.
  induction Hd as [| b l Hb Hl IH]; intros acc; [inversion Hex|].
  unfold is_digit in Hb. cbn [digits map app bin_value]. unfold bin_digit.
  destruct (Z.eqb_spec (48 + b) 48) as [E0 | N0].
  - apply IH. inversion Hex; subst; [lia | assumption].
  - destruct (Z.eqb_spec (48 + b) 49) as [E1 | N1]; [| reflexivity].
    apply IH. inversion Hex; subst; [lia | assumption].
Qed.

Lemma int2_raises (s : pystr) (e : exn) : int2 s = Raise e -> e = ValueError.
Proof.
  unfold int2. intros H.
  destruct s as [| c r]; cbn in H.
  - congruence.
  - destruct (c =? 45); [| destruct (c =? 43)];
      repeat match type of H with
             | context [match ?x with _ => _ end] => destruct x
             end; congruence.
Qed.

Lemma reste_calc_wrong_digit (D : list Z) :
  Forall is_digit D -> Exists (fun b => 2 <= b) D ->
  reste_calc D = Raise ValueError.
Proof.
  intros Hd Hex. unfold reste_calc.
  rewrite join_str_digits by assumption.
  pose proof (bin_value_wrong_digit D (lit "0000") 0 Hd Hex) as Hv.
  destruct D as [| b D]; [inversion Hex|].
  inversion Hd as [| ? ? Hb _]; subst. unfold is_digit in Hb.
  unfold int2. cbn [digits map app] in *.
  replace (48 + b =? 45) with false by (symmetry; apply Z.eqb_neq; lia).
  replace (48 + b =? 43) with false by (symmetry; apply Z.eqb_neq; lia).
  now rewrite Hv.
Qed.

Lemma bloc_ok_raises (bloc : list Z) (e : exn) :
  bloc_ok bloc = Raise e -> e = ValueError.
Proof.
  unfold bloc_ok, reste_calc.
  destruct (int2 _) eqn:E; cbn [bind]; [discriminate|].
  intros H. injection H as <-. now apply int2_raises in E.
Qed.

Lemma bloc_ok_wrong_digit (bloc : list Z) :
  Forall is_digit bloc -> Exists (fun b => 2 <= b) (data_unit bloc) ->
  bloc_ok bloc = Raise ValueError.
Proof.
  intros Hd Hex. unfold bloc_ok.
  rewrite (slice_prefix bloc 8) by lia. change (Z.to_nat 8) with 8%nat.
  rewrite reste_calc_wrong_digit; [reflexivity | | exact Hex].
  rewrite <- (firstn_skipn 8 bloc) in Hd. now apply Forall_app in Hd.
Qed.

Opaque slice bloc_ok.

Lemma crc_loop_wrong_digit (bits : list Z) (idx : nat) (data_res : list Z)
      (integrite_ok : bool) :
  Forall is_digit bits ->
  Exists (fun bloc => Exists (fun b => 2 <= b) (data_unit bloc))
         (chunks 12 (skipn idx bits)) ->
  crc_loop bits idx data_res integrite_ok = Raise ValueError.
Proof.
  intros Hd.
  funelim (crc_loop bits idx data_res integrite_ok); intros Hex.
  - rewrite chunks_short in Hex by (rewrite length_skipn; lia).
    inversion Hex.
  - rewrite (chunks_cons 12 (skipn idx bits)) in Hex
      by (rewrite length_skipn; lia).
    rewrite slice_window in * by lia.
    replace (Z.to_nat (Z.of_nat idx + 12) - Z.to_nat (Z.of_nat idx))%nat
      with 12%nat in * by lia.
    rewrite Nat2Z.id in *.
    apply Exists_cons in Hex. destruct Hex as [Hhead | Htail].
    + rewrite bloc_ok_wrong_digit in *; [discriminate | | exact Hhead].
      rewrite <- (firstn_skipn idx bits) in Hd. apply Forall_app in Hd.
      destruct Hd as [_ Hd].
      rewrite <- (firstn_skipn 12 (skipn idx bits)) in Hd.
      now apply Forall_app in Hd.
    + rewrite skipn_skipn, (Nat.add_comm 12 idx) in Htail.
      match goal with
      | IH : Forall is_digit _ -> Exists _ _ -> crc_loop _ _ _ _ = _ |- _ =>
          apply (IH Hd Htail)
      end.
  - match goal with
    | E : bloc_ok _ = Raise _ |- _ => apply bloc_ok_raises in E; now subst
    end.
Qed.

Transparent slice bloc_ok.

(** X6: the validator raises on a data element that is not a bit.  On a
    sequence of ints from 0 to 9, if the data unit of some complete block
    holds an element above 1, [int(..., 2)] fails on that block and
    [crcreception] raises ValueError: it does not return [None]. *)
Theorem crcreception_raises_on_digit (bits : list Z) :
  Forall is_digit bits ->
  Exists (fun bloc => Exists (fun b => 2 <= b) (data_unit bloc))
         (chunks 12 bits) ->
  crcreception bits = Raise ValueError.
Proof.
  intros Hd Hex. unfold crcreception.
  now rewrite crc_loop_wrong_digit.
Qed.

Lemma crcreception_raises_on_digit_witness :
  crcreception [0; 1; 0; 0; 2; 0; 0; 0; 0; 0; 0; 0] = Raise ValueError.
Proof.
  apply crcreception_raises_on_digit.
  - repeat (apply Forall_cons; [unfold is_digit; lia|]). apply Forall_nil.
  - rewrite chunks_single by reflexivity.
    apply Exists_cons_hd. unfold data_unit. cbn [firstn].
    do 4 apply Exists_cons_tl. apply Exists_cons_hd. lia.
Defined.

(** ** The assembler on what a sender builds *)

Lemma units_of_blocks (message : pystr) :
  Forall is_byte message ->
  Forall (fun D => length D = 8%nat) (units_of message)
  /\ Forall bit_seq (units_of message)
  /\ map unsigned (units_of message) = message.
Proof.
  unfold units_of. induction 1 as [| c message Hc _ (IH1 & IH2 & IH3)].
  - repeat split; constructor.
  - cbn [map]. repeat split.
    + constructor; [reflexivity | exact IH1].
    + constructor; [apply render8_bit_seq | exact IH2].
    + now rewrite unsigned_render8, IH3.
Qed.

Lemma concat_bit_seq (units : list (list Z)) :
  Forall bit_seq units -> bit_seq (concat units).
Proof.
  induction 1 as [| D units HD _ IH]; [constructor|].
  cbn [concat]. apply bit_seq_app. now split.
Qed.

Lemma is_byte_placeholder : Forall is_byte placeholder.
Proof.
  assert (H : forallb (fun c => (0 <=? c) && (c <? 256)) placeholder = true)
    by (vm_compute; reflexivity).
  rewrite forallb_forall in H. apply Forall_forall. intros c Hin.
  specialize (H c Hin). apply andb_true_iff in H.
  unfold is_byte. destruct H as [H1 H2].
  apply Z.leb_le in H1. apply Z.ltb_lt in H2. lia.
Qed.

(** X7: round trip of the text.  The 8-bit renderings of the code points of
    a non-empty message, all below 256, are assembled back into that message;
    up to 7 bits after the last group change nothing. *)
Theorem ASCII_decode_units (message : pystr) (tail : list Z) :
  Forall is_byte message -> message <> [] ->
  bit_seq tail -> (length tail < 8)%nat ->
  ASCII_decode (concat (units_of message) ++ tail) (lit "txt") = Ok message.
Proof.
  intros Hbytes Hne Htail Hshort.
  destruct (units_of_blocks message Hbytes) as (Hlen & Hbits & Hval).
  rewrite ASCII_decode_bits
    by (apply bit_seq_app; split; [apply concat_bit_seq|]; assumption).
  rewrite chunks_concat by (assumption || lia). rewrite Hval.
  destruct message as [| c message]; [congruence|].
  reflexivity.
Qed.

Lemma ASCII_decode_units_witness :
  ASCII_decode (concat (units_of (lit "HI")) ++ [1; 0; 1]) (lit "txt")
  = Ok (lit "HI").
Proof.
  change (lit "HI") with [72; 73].
  apply ASCII_decode_units.
  - repeat (apply Forall_cons; [unfold is_byte; lia|]). apply Forall_nil.
  - discriminate.
  - repeat (apply Forall_cons; [first [left; reflexivity | right; reflexivity]|]).
    apply Forall_nil.
  - simpl. lia.
Defined.

(** X8: on a bit sequence the assembler never raises, and what it returns,
    text or placeholder, holds only code points below 256. *)
Theorem ASCII_decode_bytes (bits : list Z) (type_fic : pystr) :
  bit_seq bits ->
  exists chaine,
    ASCII_decode bits type_fic = Ok chaine /\ Forall is_byte chaine.
Proof.
  intros Hbits. rewrite ASCII_decode_bits by assumption.
  eexists. split; [reflexivity|].
  destruct (negb (list_eqb type_fic (lit "txt"))
            || match bits with [] => true | _ :: _ => false end);
    [apply is_byte_placeholder|].
  apply Forall_forall. intros c Hin.
  apply in_map_iff in Hin. destruct Hin as [g [<- Hg]].
  destruct (chunks_count 8 bits) as [_ Hall]; [lia|].
  pose proof (chunks_bit_seq 8 bits ltac:(lia) Hbits) as Hgbits.
  rewrite Forall_forall in Hall, Hgbits.
  pose proof (unsigned_bounds g (Hgbits g Hg)) as Hb.
  rewrite (Hall g Hg) in Hb. change (2 ^ Z.of_nat 8) with 256 in Hb.
  exact Hb.
Qed.

Lemma ASCII_decode_bytes_witness :
  exists chaine,
    ASCII_decode (render8 72 ++ [1; 1]) (lit "txt") = Ok chaine
    /\ Forall is_byte chaine.
Proof.
  apply ASCII_decode_bytes.
  apply bit_seq_app. split; [apply render8_bit_seq|].
  repeat (apply Forall_cons; [first [left; reflexivity | right; reflexivity]|]).
  apply Forall_nil.
Defined.

(** X9: between 1 and 7 elements of kind "txt" give the empty string, not
    the placeholder: the sequence is not empty, and the loop stops at its
    first group before reading anything. *)
Theorem ASCII_decode_short (bits : list Z) :
  (0 < length bits < 8)%nat -> ASCII_decode bits (lit "txt") = Ok [].
Proof.
  intros H. unfold ASCII_decode.
  change (list_eqb (lit "txt") (lit "txt")) with true. cbn [negb orb].
  destruct bits as [| b bits]; [simpl in H; lia|].
  unfold range. cbn [length range_from Nat.ltb Nat.leb ASCII_loop].
  rewrite slice_window by lia. unfold len.
  rewrite length_firstn, length_skipn.
  replace (Z.of_nat _ <? 8) with true; [reflexivity|].
  symmetry. apply Z.ltb_lt. cbn [length] in *. lia.
Qed.

Lemma ASCII_decode_short_witness :
  ASCII_decode [1; 0; 1] (lit "txt") = Ok [].
Proof.
  apply ASCII_decode_short. simpl. lia.
Defined.

(** ** The three stages in sequence *)

Lemma trame_reception_frame_of (protocole payload : list Z) :
  length protocole = 8%nat ->
  trame_reception (frame_of protocole payload)
  = Some (payload,
          if list_eqb protocole text_protocol then lit "txt" else lit "?").
Proof.
  intros Hp. rewrite trame_reception_eq.
  destruct (frame_of_parts protocole payload Hp) as (Hlen & Hs & He & Hi).
  rewrite Hs, He, Hi, Hlen.
  replace (24 + length payload <? 24)%nat with false
    by (symmetry; apply Nat.ltb_ge; lia).
  change (list_eqb (repeat 1 8) (repeat 1 8)) with true.
  change (list_eqb (repeat 0 8) (repeat 0 8)) with true.
  cbn [negb orb].
  destruct (firstn_app_exact protocole payload 8 Hp) as [-> ->].
  reflexivity.
Qed.

(** What the three stages make of a frame with a payload of bits. *)
Lemma decode_trame_frame_of (protocole payload : list Z) :
  length protocole = 8%nat -> bit_seq payload ->
  decode_trame (frame_of protocole payload)
  = Ok (if forallb verifiesb (chunks 12 payload)
        then Message
               (if negb (list_eqb protocole text_protocol)
                   || match concat (map data_unit (chunks 12 payload)) with
                      | [] => true
                      | _ :: _ => false
                      end
                then placeholder
                else map unsigned
                       (chunks 8 (concat (map data_unit (chunks 12 payload)))))
        else CrcError).
Proof.
  intros Hp Hbits. unfold decode_trame.
  rewrite trame_reception_frame_of, crcreception_bits by assumption.
  cbn [bind].
  destruct (forallb verifiesb (chunks 12 payload)); [| reflexivity].
  rewrite ASCII_decode_bits
    by (apply data_units_bit_seq, chunks_bit_seq; [lia | assumption]).
  cbn [bind].
  destruct (list_eqb protocole text_protocol); reflexivity.
Qed.

(** X10: round trip of a message.  The frame of the text protocol whose
    payload holds, for each code point of a non-empty message of code points
    below 256, its 8 bits and their checksum, is decoded by the three stages
    into that message; up to 11 bits between the last block and the end
    flag change nothing. *)
Theorem decode_trame_message (message : pystr) (tail : list Z) :
  Forall is_byte message -> message <> [] ->
  bit_seq tail -> (length tail < 12)%nat ->
  decode_trame
    (frame_of text_protocol (protect_all (units_of message) ++ tail))
  = Ok (Message message).
Proof.
  intros Hbytes Hne Htail Hshort.
  destruct (units_of_blocks message Hbytes) as (Hlen & Hbits & Hval).
  destruct (protect_all_blocks _ Hlen) as (Econcat & Hblocs & Hdata & Hok).
  rewrite decode_trame_frame_of;
    [| reflexivity
     | apply bit_seq_app; split; [apply protect_all_bit_seq|]; assumption].
  rewrite Econcat, chunks_concat by (assumption || lia).
  rewrite Hok, Hdata.
  rewrite <- (app_nil_r (concat (units_of message))).
  rewrite chunks_concat by (assumption || simpl; lia).
  rewrite Hval, app_nil_r.
  change (list_eqb text_protocol text_protocol) with true. cbn [negb orb].
  destruct message as [| c message]; [congruence|]. reflexivity.
Qed.

Lemma decode_trame_message_witness :
  decode_trame (frame_of text_protocol (protect_all (units_of [72; 73]) ++ [1; 0]))
  = Ok (Message [72; 73]).
Proof.
  apply decode_trame_message.
  - repeat (apply Forall_cons; [unfold is_byte; lia|]). apply Forall_nil.
  - discriminate.
  - repeat (apply Forall_cons; [first [left; reflexivity | right; reflexivity]|]).
    apply Forall_nil.
  - simpl. lia.
Defined.

(** X11: the checksum is checked before the protocol.  In a frame whose
    payload of bits has a complete block that does not verify, the three
    stages report the checksum error, whatever the protocol byte is. *)
Theorem decode_trame_crc_first (protocole payload : list Z) :
  length protocole = 8%nat -> bit_seq payload ->
  Exists (fun bloc => ~ verifies bloc) (chunks 12 payload) ->
  decode_trame (frame_of protocole payload) = Ok CrcError.
Proof.
  intros Hp Hbits Hex. rewrite decode_trame_frame_of by assumption.
  destruct (forallb verifiesb (chunks 12 payload)) eqn:Hall; [| reflexivity].
  exfalso. apply forallb_verifies in Hall.
  apply Exists_exists in Hex. destruct Hex as [bloc [Hin Hno]].
  rewrite Forall_forall in Hall. exact (Hno (Hall bloc Hin)).
Qed.

Lemma decode_trame_crc_first_witness :
  decode_trame (frame_of (repeat 0 8) (render8 72 ++ [0; 0; 0; 1]))
  = Ok CrcError.
Proof.
  apply decode_trame_crc_first.
  - reflexivity.
  - apply bit_seq_app. split; [apply render8_bit_seq|].
    repeat (apply Forall_cons; [first [left; reflexivity | right; reflexivity]|]).
    apply Forall_nil.
  - rewrite chunks_single by reflexivity. apply Exists_cons_hd.
    unfold verifies. vm_compute. discriminate.
Defined.

(** X12: a frame that passes the checksum but has another protocol byte
    than 11000011, or fewer than 12 payload bits, gives the placeholder as
    its message: no error is reported and nothing is decoded. *)
Theorem decode_trame_placeholder (protocole payload : list Z) :
  length protocole = 8%nat -> bit_seq payload ->
  Forall verifies (chunks 12 payload) ->
  protocole <> text_protocol \/ (length payload < 12)%nat ->
  decode_trame (frame_of protocole payload) = Ok (Message placeholder).
Proof.
  intros Hp Hbits Hall Hwhy. rewrite decode_trame_frame_of by assumption.
  apply forallb_verifies in Hall. rewrite Hall.
  destruct Hwhy as [Hproto | Hshort].
  - apply list_eqb_neq in Hproto. now rewrite Hproto.
  - rewrite chunks_short by exact Hshort. cbn [map concat].
    now rewrite orb_true_r.
Qed.

Lemma decode_trame_placeholder_witness :
  decode_trame (frame_of (repeat 0 8) (protect (render8 72)))
  = Ok (Message placeholder).
Proof.
  apply decode_trame_placeholder.
  - reflexivity.
  - apply protect_bit_seq, render8_bit_seq.
  - rewrite chunks_single by reflexivity.
    apply Forall_cons; [| apply Forall_nil].
    apply verifiesb_iff. reflexivity.
  - left. discriminate.
Defined.

(** ** Nothing is raised along the chain *)

Lemma pair_bit_bit_seq (b1 b2 : Z) : bit_seq (pair_bit b1 b2).
Proof.
  unfold pair_bit.
  destruct ((b1 =? 1) && (b2 =? 0)).
  - apply Forall_cons; [now right | apply Forall_nil].
  - destruct ((b1 =? 0) && (b2 =? 1)); [| apply Forall_nil].
    apply Forall_cons; [now left | apply Forall_nil].
Qed.

Lemma pairs_decode_bit_seq (bits : list Z) : bit_seq (pairs_decode bits).
Proof.
  induction bits as [| x | x y l IH] using pair_induction;
    [constructor | constructor |].
  cbn [pairs_decode]. apply bit_seq_app.
  split; [apply pair_bit_bit_seq | exact IH].
Qed.

Lemma demodulate_signal_bit_seq (np_sin : float -> float)
      (sum_order : nat -> sum_tree) (signal : list float) (Fe_used : Z) :
  bit_seq (demodulate_signal np_sin sum_order signal Fe_used).
Proof.
  rewrite demodulate_signal_windows. apply Forall_forall. intros b Hin.
  apply in_map_iff in Hin. destruct Hin as [k [<- _]].
  destruct (F64.gt _ _); [now right | now left].
Qed.

(** On bits, the three stages end in one of their three outcomes. *)
Lemma decode_trame_bits (bits_manch : list Z) :
  bit_seq bits_manch ->
  decode_trame bits_manch = Ok TrameError
  \/ decode_trame bits_manch = Ok CrcError
  \/ exists message,
       decode_trame bits_manch = Ok (Message message)
       /\ Forall is_byte message.
Proof.
  intros Hbits. unfold decode_trame. rewrite trame_reception_eq.
  destruct ((length bits_manch <? 24)%nat
            || negb (list_eqb (firstn 8 bits_manch) (repeat 1 8))
            || negb (list_eqb (skipn (length bits_manch - 8) bits_manch)
                       (repeat 0 8)));
    [now left|].
  assert (Hpay : bit_seq (skipn 8 (interior bits_manch)))
    by (unfold interior; auto with bits).
  rewrite crcreception_bits by exact Hpay. cbn [bind].
  destruct (forallb verifiesb (chunks 12 (skipn 8 (interior bits_manch))));
    [| right; now left].
  right. right.
  set (d := concat (map data_unit (chunks 12 (skipn 8 (interior bits_manch))))).
  assert (Hd : bit_seq d)
    by (apply data_units_bit_seq, chunks_bit_seq; [lia | exact Hpay]).
  rewrite ASCII_decode_bits by exact Hd. cbn [bind].
  eexists. split; [reflexivity|].
  destruct (negb _ || _); [apply is_byte_placeholder|].
  apply Forall_forall. intros c Hin.
  apply in_map_iff in Hin. destruct Hin as [g [<- Hg]].
  destruct (chunks_count 8 d) as [_ Hall]; [lia|].
  pose proof (chunks_bit_seq 8 d ltac:(lia) Hd) as Hgbits.
  rewrite Forall_forall in Hall, Hgbits.
  pose proof (unsigned_bounds g (Hgbits g Hg)) as Hb.
  rewrite (Hall g Hg) in Hb. change (2 ^ Z.of_nat 8) with 256 in Hb.
  exact Hb.
Qed.




(** ** Manchester decoding of concatenations and of damaged pairs *)

Lemma pairs_decode_app (a b : list Z) :
  Nat.even (length a) = true ->
  pairs_decode (a ++ b) = pairs_decode a ++ pairs_decode b.
Proof.
  induction a as [| x | x y l IH] using pair_induction; intros Heven.
  - reflexivity.
  - discriminate.
  - cbn [app pairs_decode]. rewrite IH by exact Heven.
    now rewrite app_assoc.
Qed.

(** X15: Manchester decoding works pair by pair.  When the first part of a
    sequence has an even number of elements, decoding the whole is decoding
    both parts and concatenating. *)
Theorem Manchester_decode_app (a b : list Z) :
  Nat.even (length a) = true ->
  Manchester_decode (a ++ b)
  = (x <- Manchester_decode a ;; y <- Manchester_decode b ;; Ok (x ++ y)).
Proof.
  intros Heven. rewrite !Manchester_decode_total. cbn [bind].
  now rewrite pairs_decode_app.
Qed.

Lemma Manchester_decode_app_witness :
  Manchester_decode ([1; 0; 1; 1] ++ [0; 1; 0])
  = (x <- Manchester_decode [1; 0; 1; 1] ;;
     y <- Manchester_decode [0; 1; 0] ;; Ok (x ++ y)).
Proof.
  apply Manchester_decode_app. reflexivity.
Defined.

Lemma pair_bit_clean (p : Z * Z) :
  (clean_pair p -> length (pair_bit (fst p) (snd p)) = 1%nat)
  /\ (~ clean_pair p -> pair_bit (fst p) (snd p) = []).
Proof.
  destruct p as [b1 b2]. unfold clean_pair, pair_bit. cbn [fst snd]. split.
  - intros [E | E]; injection E as -> ->; reflexivity.
  - intros Hno.
    destruct (Z.eqb_spec b1 1), (Z.eqb_spec b2 0), (Z.eqb_spec b1 0),
      (Z.eqb_spec b2 1); subst; cbn [andb]; try reflexivity; try lia;
      exfalso; apply Hno; auto.
Qed.

Lemma pairs_decode_pairs_length (ps : list (Z * Z)) :
  (length (pairs_decode (flat_map pair_bits ps)) <= length ps)%nat.
Proof.
  induction ps as [| p ps IH]; [simpl; lia|].
  cbn [flat_map pair_bits app pairs_decode length].
  rewrite length_app. pose proof (pair_bit_length (fst p) (snd p)). lia.
Qed.

(** X16: a damaged pair costs a bit.  If an even-length input, read as
    pairs, holds at least one pair that is neither (1,0) nor (0,1), the
    decoder silently returns fewer bits than there are pairs. *)
Theorem Manchester_decode_loses_bits (ps : list (Z * Z)) :
  Exists (fun p => ~ clean_pair p) ps ->
  exists decode,
    Manchester_decode (flat_map pair_bits ps) = Ok decode
    /\ (length decode < length (flat_map pair_bits ps) / 2)%nat.
Proof.
  intros Hex. rewrite Manchester_decode_total.
  eexists. split; [reflexivity|].
  rewrite flat_pairs_length, Nat.mul_comm, Nat.div_mul by lia.
  induction Hex as [p ps Hp | p ps _ IH];
    cbn [flat_map pair_bits app pairs_decode length]; rewrite length_app.
  - rewrite (proj2 (pair_bit_clean p) Hp).
    pose proof (pairs_decode_pairs_length ps). simpl. lia.
  - pose proof (pair_bit_length (fst p) (snd p)). lia.
Qed.

Lemma Manchester_decode_loses_bits_witness :
  let ps := [(1, 0); (1, 1); (0, 1)] in
  exists decode,
    Manchester_decode (flat_map pair_bits ps) = Ok decode
    /\ (length decode < length (flat_map pair_bits ps) / 2)%nat.
Proof.
  intros ps. apply Manchester_decode_loses_bits.
  apply Exists_cons_tl, Exists_cons_hd.
  unfold clean_pair. intros [E | E]; discriminate.
Defined.

(** ** Windows of the demodulator *)

Lemma np_mul_length (np_sin : float -> float) (signal : list float)
      (Fe_used : Z) :
  length (np_mul signal (carrier np_sin (instants (length signal) Fe_used)))
  = length signal.
Proof.
  unfold np_mul, carrier, instants.
  rewrite length_map, length_combine, !length_map, length_seq. lia.
Qed.

(** The integral of a window of one sample is zero. *)
Lemma np_trapz_single (sum_order : nat -> sum_tree) (y : list float) :
  length y = 1%nat -> np_trapz sum_order y = F64.zero.
Proof.
  intros H. destruct y as [| a [| b y]]; try discriminate. reflexivity.
Qed.

(** X17: a last window of a single sample always gives the bit 0.  When the
    number of samples is one more than a multiple of 220, the last window
    holds one sample, its trapezoidal integral is the empty sum 0, and the
    last bit is 0 whatever that sample is. *)
Theorem demodulate_signal_lone_sample (np_sin : float -> float)
        (sum_order : nat -> sum_tree) (signal : list float) (Fe_used : Z)
        (q : nat) :
  length signal = (220 * q + 1)%nat ->
  length (demodulate_signal np_sin sum_order signal Fe_used) = S q
  /\ nth_error (demodulate_signal np_sin sum_order signal Fe_used) q = Some 0.
Proof.
  intros Hlen.
  assert (Hcount : length (demodulate_signal np_sin sum_order signal Fe_used)
                   = S q).
  { rewrite demodulate_signal_length, Hlen. unfold ceil_div.
    replace (220 * q + 1 + 220 - 1)%nat with (S q * 220)%nat by lia.
    apply Nat.div_mul. lia. }
  split; [exact Hcount|].
  rewrite demodulate_signal_nth by lia.
  rewrite np_trapz_single; [reflexivity|].
  rewrite length_firstn, length_skipn, np_mul_length. lia.
Qed.

Lemma demodulate_signal_lone_sample_witness :
  length (demodulate_signal (fun x => x) (fun _ => Start false) [F64.one] Fe)
  = 1%nat
  /\ nth_error
       (demodulate_signal (fun x => x) (fun _ => Start false) [F64.one] Fe) 0
     = Some 0.
Proof.
  apply (demodulate_signal_lone_sample _ _ [F64.one] Fe 0). reflexivity.
Defined.

Lemma firstn_ext {A : Type} (n : nat) (l1 l2 : list A) :
  (forall j, (j < n)%nat -> nth_error l1 j = nth_error l2 j) ->
  firstn n l1 = firstn n l2.
Proof.
  revert l1 l2. induction n as [| n IH]; intros l1 l2 H; [reflexivity|].
  pose proof (H 0%nat ltac:(lia)) as H0.
  destruct l1 as [| x l1], l2 as [| y l2]; try discriminate; [reflexivity|].
  injection H0 as ->. cbn [firstn]. f_equal.
  apply IH. intros j Hj. apply (H (S j)). lia.
Qed.

(** On the samples of [signal], the product is the same when more samples
    follow. *)
Lemma produit_prefix (np_sin : float -> float) (signal more : list float)
      (Fe_used : Z) (j : nat) :
  (j < length signal)%nat ->
  nth_error
    (np_mul (signal ++ more)
       (carrier np_sin (instants (length (signal ++ more)) Fe_used))) j
  = nth_error
      (np_mul signal (carrier np_sin (instants (length signal) Fe_used))) j.
Proof.
  intros Hj.
  destruct (nth_error signal j) as [x |] eqn:Hx;
    [| apply nth_error_None in Hx; lia].
  rewrite (produit_nth np_sin signal Fe_used j x Hx).
  apply produit_nth. rewrite nth_error_app1 by exact Hj. exact Hx.
Qed.

(** X18: a bit depends only on its window.  The bit decided on a complete
    window of 220 samples is the same whatever samples follow that window:
    the carrier is computed from the sample index, not from the length of
    the signal. *)
Theorem demodulate_signal_prefix (np_sin : float -> float)
        (sum_order : nat -> sum_tree) (signal more : list float)
        (Fe_used : Z) (k : nat) :
  (220 * (k + 1) <= length signal)%nat ->
  nth_error (demodulate_signal np_sin sum_order (signal ++ more) Fe_used) k
  = nth_error (demodulate_signal np_sin sum_order signal Fe_used) k.
Proof.
  intros Hk.
  assert (Hc : forall n, (220 * (k + 1) <= n)%nat -> (k < ceil_div n 220)%nat).
  { intros n Hn. pose proof (ceil_div_spec n 220 ltac:(lia)). nia. }
  rewrite !demodulate_signal_nth
    by (rewrite demodulate_signal_length; apply Hc;
        rewrite ?length_app; lia).
  assert (W : firstn 220
                (skipn (k * 220)
                   (np_mul (signal ++ more)
                      (carrier np_sin
                         (instants (length (signal ++ more)) Fe_used))))
              = firstn 220
                  (skipn (k * 220)
                     (np_mul signal
                        (carrier np_sin (instants (length signal) Fe_used))))).
  { rewrite !firstn_skipn_comm. f_equal.
    apply firstn_ext. intros j Hj. apply produit_prefix. lia. }
  now rewrite W.
Qed.

Lemma demodulate_signal_prefix_witness :
  nth_error
    (demodulate_signal (fun x => x) (fun _ => Start false)
       (repeat F64.one 220 ++ [F64.zero]) Fe) 0
  = nth_error
      (demodulate_signal (fun x => x) (fun _ => Start false)
         (repeat F64.one 220) Fe) 0.
Proof.
  apply (demodulate_signal_prefix _ _ (repeat F64.one 220) [F64.zero] Fe 0).
  rewrite repeat_length. lia.
Defined.

(** ** One wrong bit in a flag *)

Lemma flip_nth_error (p : nat) (l : list Z) :
  (p < length l)%nat ->
  exists x, nth_error l p = Some x /\ nth_error (flip p l) p = Some (1 - x).
Proof.
  intros Hp. destruct (skipn_cons l p Hp) as [x [Hx Hs]].
  exists x. split; [exact Hx|].
  unfold flip. rewrite Hs. cbn [firstn map app].
  rewrite nth_error_app2 by (rewrite length_firstn; lia).
  rewrite length_firstn. replace (p - Nat.min p (length l))%nat with 0%nat by lia.
  reflexivity.
Qed.

(** X19: every single wrong bit in a flag is a framing error.  If a
    sequence is accepted as a frame, flipping any one of its first 8 or of
    its last 8 bits makes frame extraction fail. *)
Theorem trame_reception_flag_flip (bits : list Z) (p : nat) :
  trame_reception bits <> None ->
  (p < 8)%nat \/ (length bits - 8 <= p < length bits)%nat ->
  trame_reception (flip p bits) = None.
Proof.
  rewrite !trame_reception_eq, flip_length.
  destruct (length bits <? 24)%nat eqn:Hlen;
    [cbn [orb]; intros H; now contradiction H|].
  destruct (list_eqb (firstn 8 bits) (repeat 1 8)) eqn:Hstart;
    [| cbn [negb orb]; intros H; now contradiction H].
  destruct (list_eqb (skipn (length bits - 8) bits) (repeat 0 8)) eqn:Hend;
    [| cbn [negb orb]; intros H; now contradiction H].
  intros _ Hp. apply Nat.ltb_ge in Hlen.
  apply list_eqb_eq in Hstart, Hend.
  destruct (flip_nth_error p bits) as [x [Hx Hfx]]; [lia|].
  destruct Hp as [Hp | Hp].
  - (* start flag *)
    replace (list_eqb (firstn 8 (flip p bits)) (repeat 1 8)) with false;
      [reflexivity|].
    symmetry. apply list_eqb_neq. intros E.
    apply (f_equal (fun l => nth_error l p)) in E, Hstart.
    rewrite nth_error_firstn, nth_error_repeat in E, Hstart by lia.
    apply Nat.ltb_lt in Hp. rewrite Hp in E, Hstart.
    rewrite Hx in Hstart. rewrite Hfx in E.
    injection Hstart as ->. discriminate.
  - (* end flag *)
    replace (list_eqb (skipn (length bits - 8) (flip p bits)) (repeat 0 8))
      with false; [now rewrite orb_true_r|].
    symmetry. apply list_eqb_neq. intros E.
    apply (f_equal (fun l => nth_error l (p - (length bits - 8)))) in E, Hend.
    rewrite nth_error_skipn, nth_error_repeat in E, Hend by lia.
    replace (length bits - 8 + (p - (length bits - 8)))%nat with p
      in E, Hend by lia.
    rewrite Hx in Hend. rewrite Hfx in E.
    injection Hend as ->. discriminate.
Qed.

Lemma trame_reception_flag_flip_witness :
  trame_reception (flip 3 frame_HI) = None.
Proof.
  apply trame_reception_flag_flip.
  - discriminate.
  - left. lia.
Defined.
